(** * poissimple: naive Poisson disk sampling

    A shallow embedding of [src/poissimple.js] (the two constructors
    [PoisSimple] and [Poissimple] with their prototype methods) and the
    properties of the sampler proved over it.

    Numbers.  A JavaScript Number is modelled as an extended real with a
    NaN: the special values keep their IEEE-754 behaviour ([Infinity -
    Infinity] is NaN, [undefined] read in arithmetic is NaN, nothing
    compares with NaN), finite values carry exact real arithmetic.  Rounding,
    overflow to infinity and the sign of zero are outside the model.

    Random source.  The injected [rng] is modelled by the sequence of the
    values it returns, [rng k] being the value of call number [k]; the
    sampler state counts the calls made so far. *)

From Stdlib Require Import Reals Lra Lia List Bool Arith ZArith.
Import ListNotations.

(** ** JavaScript numbers *)

Module JS.

Inductive num : Type :=
| NaN
| NegInf
| Fin (r : R)
| PosInf.

Definition is_nan (x : num) : bool :=
  match x with NaN => true | _ => false end.

Definition is_inf (x : num) : bool :=
  match x with NegInf | PosInf => true | _ => false end.

Definition neg (x : num) : num :=
  match x with
  | NaN => NaN
  | NegInf => PosInf
  | Fin r => Fin (- r)
  | PosInf => NegInf
  end.

(** [a + b] *)
Definition add (a b : num) : num :=
  match a, b with
  | NaN, _ | _, NaN => NaN
  | PosInf, NegInf | NegInf, PosInf => NaN
  | PosInf, _ | _, PosInf => PosInf
  | NegInf, _ | _, NegInf => NegInf
  | Fin x, Fin y => Fin (x + y)
  end.

(** [a - b] *)
Definition sub (a b : num) : num := add a (neg b).

(** [a * b] *)
Definition mul (a b : num) : num :=
  match a, b with
  | NaN, _ | _, NaN => NaN
  | Fin x, Fin y => Fin (x * y)
  | Fin x, i | i, Fin x =>
      if Rlt_dec 0 x then i else if Rlt_dec x 0 then neg i else NaN
  | PosInf, PosInf | NegInf, NegInf => PosInf
  | PosInf, NegInf | NegInf, PosInf => NegInf
  end.

(** [a / b]; the model has one zero, which divides like [+0]. *)
Definition div (a b : num) : num :=
  match a, b with
  | NaN, _ | _, NaN => NaN
  | Fin x, Fin y =>
      if Req_dec_T y 0 then
        if Rlt_dec 0 x then PosInf else if Rlt_dec x 0 then NegInf else NaN
      else Fin (x / y)
  | Fin _, _ => Fin 0
  | i, Fin y => if Rlt_dec y 0 then neg i else i
  | _, _ => NaN
  end.

(** [a > b] *)
Definition gtb (a b : num) : bool :=
  match a, b with
  | NaN, _ | _, NaN => false
  | PosInf, PosInf => false
  | PosInf, _ => true
  | _, PosInf => false
  | NegInf, _ => false
  | Fin _, NegInf => true
  | Fin x, Fin y => if Rlt_dec y x then true else false
  end.

(** [Math.abs] *)
Definition Math_abs (x : num) : num :=
  match x with
  | NaN => NaN
  | NegInf | PosInf => PosInf
  | Fin r => Fin (Rabs r)
  end.

(** One step of [Math.min]: NaN wins, otherwise the lower number. *)
Definition min2 (lowest x : num) : num :=
  match lowest, x with
  | NaN, _ | _, NaN => NaN
  | _, _ => if gtb lowest x then x else lowest
  end.

(** [Math.min(...args)]: [+Infinity] with no argument. *)
Definition Math_min (args : list num) : num := fold_left min2 args PosInf.

Definition square_or_zero (x : num) : R :=
  match x with Fin r => (r * r)%R | _ => 0%R end.

(** [Math.hypot(...args)]: an infinite argument gives [+Infinity] even next
    to a NaN, then a NaN gives NaN, and no argument gives 0. *)
Definition Math_hypot (args : list num) : num :=
  if existsb is_inf args then PosInf
  else if existsb is_nan args then NaN
  else Fin (sqrt (fold_right Rplus 0%R (map square_or_zero args))).

Definition is_integer (y : R) : bool :=
  if Req_dec_T y (IZR (Int_part y)) then true else false.

Definition is_odd_integer (y : R) : bool :=
  is_integer y && Z.odd (Int_part y).

(** [Math.pow(base, exponent)], by the cases of Number::exponentiate. *)
Definition Math_pow (base exponent : num) : num :=
  match exponent with
  | NaN => NaN
  | Fin y =>
      if Req_dec_T y 0 then Fin 1
      else
        match base with
        | NaN => NaN
        | PosInf => if Rlt_dec 0 y then PosInf else Fin 0
        | NegInf =>
            if Rlt_dec 0 y
            then (if is_odd_integer y then NegInf else PosInf)
            else Fin 0
        | Fin x =>
            if Req_dec_T x 0 then (if Rlt_dec 0 y then Fin 0 else PosInf)
            else if Rlt_dec 0 x then Fin (Rpower x y)
            else if is_odd_integer y then Fin (- Rpower (- x) y)
            else if is_integer y then Fin (Rpower (- x) y)
            else NaN
        end
  | PosInf =>
      match base with
      | NaN => NaN
      | Fin x =>
          if Rlt_dec 1 (Rabs x) then PosInf
          else if Req_dec_T (Rabs x) 1 then NaN else Fin 0
      | _ => PosInf
      end
  | NegInf =>
      match base with
      | NaN => NaN
      | Fin x =>
          if Rlt_dec 1 (Rabs x) then Fin 0
          else if Req_dec_T (Rabs x) 1 then NaN else PosInf
      | _ => Fin 0
      end
  end.

Definition Math_PI : num := Fin PI.

(** An integer (an array length, a count) used as a Number. *)
Definition of_nat (k : nat) : num := Fin (INR k).

(** [a || b] on an optional count: [undefined] and [0] are falsy. *)
Definition or_default (a : option nat) (b : nat) : nat :=
  match a with
  | Some (S k) => S k
  | _ => b
  end.

(** Reading index [i] of an array of numbers for arithmetic: a missing
    element is [undefined], which converts to NaN. *)
Definition at_index (a : list num) (i : nat) : num := nth i a NaN.

End JS.

Import JS.

(** ** Exceptions and the state of [this] *)

Inductive exn : Type := TypeError.

Inductive outcome (A : Type) : Type :=
| Ret (a : A)
| Throw (e : exn).
Arguments Ret {A} a.
Arguments Throw {A} e.

Definition obind {A B : Type} (m : outcome A) (k : A -> outcome B) : outcome B :=
  match m with
  | Ret a => k a
  | Throw e => Throw e
  end.

(** A point is an array of coordinates; an axis of the extent is the pair
    [[lower, upper]]. *)
Definition point : Type := list num.
Definition bounds : Type := (num * num)%type.

(** The [extent] option as the caller writes it: [[lower, upper]] (documented
    for one dimension) or one pair per axis. *)
Inductive extent_arg : Type :=
| Flat (lower upper : num)
| Nested (axes : list bounds).

(** The [periodic] option of the README: one flag or one flag per axis. *)
Inductive periodic_arg : Type :=
| Uniform (flag : bool)
| PerAxis (flags : list bool).

(** The options object; [None] is an absent property. *)
Record options : Type := mkOptions {
  opt_n : option nat;
  opt_dimensions : option nat;
  opt_extent : option extent_arg;
  opt_periodic : option periodic_arg;
  opt_tries : option nat;
  opt_repulsiveBoundary : option bool
}.

(** ** A small state-and-exception monad for the methods

    A method runs on [this] (state [S]) and either returns a value or throws;
    what it did to [this] before throwing stays done. *)

Definition M (S A : Type) : Type := S -> outcome A * S.

Definition ret {S A : Type} (a : A) : M S A := fun s => (Ret a, s).

Definition bind {S A B : Type} (m : M S A) (k : A -> M S B) : M S B :=
  fun s =>
    match m s with
    | (Ret a, s') => k a s'
    | (Throw e, s') => (Throw e, s')
    end.

Definition get {S : Type} : M S S := fun s => (Ret s, s).

Definition modify {S : Type} (f : S -> S) : M S unit := fun s => (Ret tt, f s).

(** A computation that only reads [this]. *)
Definition read {S A : Type} (f : S -> outcome A) : M S A := fun s => (f s, s).

Declare Scope js_scope.
Delimit Scope js_scope with js.
Notation "x <- m ;; k" := (bind m (fun x => k))
  (at level 61, m at next level, right associativity) : js_scope.
Notation "m ;;; k" := (bind m (fun _ => k))
  (at level 61, right associativity) : js_scope.

(** [array.map(f)] and [array.forEach(f)] with a callback that may throw:
    the first exception ends the traversal. *)
Fixpoint map_outcome {A B : Type} (f : A -> outcome B) (l : list A) : outcome (list B) :=
  match l with
  | [] => Ret []
  | a :: l' =>
      obind (f a) (fun b => obind (map_outcome f l') (fun bs => Ret (b :: bs)))
  end.

Fixpoint fold_outcome {A B : Type} (f : B -> A -> outcome B) (l : list A) (acc : B) : outcome B :=
  match l with
  | [] => Ret acc
  | a :: l' => obind (f acc a) (fun acc' => fold_outcome f l' acc')
  end.

(** [Array(k).fill().map(() => [-1, 1])] *)
Definition default_extent (k : nat) : list bounds := repeat (Fin (-1), Fin 1) k.

(** ** The documented constructor [Poissimple] *)

Module Poissimple.

Local Open Scope js_scope.

(** The fields of [this], and [draws], the number of calls made to [rng]
    (the state the random source keeps behind its closure). *)
Record sampler : Type := mkSampler {
  n : nat;
  dim : nat;
  extent : list bounds;
  tries : nat;
  rng : nat -> num;
  repulsiveBoundary : bool;
  volume : num;
  radius : num;
  points : list (option point);
  draws : nat
}.

Definition set_volume (v : num) (this : sampler) : sampler :=
  mkSampler (n this) (dim this) (extent this) (tries this) (rng this)
    (repulsiveBoundary this) v (radius this) (points this) (draws this).

Definition set_radius (r : num) (this : sampler) : sampler :=
  mkSampler (n this) (dim this) (extent this) (tries this) (rng this)
    (repulsiveBoundary this) (volume this) r (points this) (draws this).

Definition set_points (ps : list (option point)) (this : sampler) : sampler :=
  mkSampler (n this) (dim this) (extent this) (tries this) (rng this)
    (repulsiveBoundary this) (volume this) (radius this) ps (draws this).

Definition set_draws (k : nat) (this : sampler) : sampler :=
  mkSampler (n this) (dim this) (extent this) (tries this) (rng this)
    (repulsiveBoundary this) (volume this) (radius this) (points this) k.

(** [this.points.push(p)] *)
Definition push (p : option point) : M sampler unit :=
  modify (fun this => set_points (points this ++ [p]) this).

(** [this.rng()] *)
Definition call_rng : M sampler num :=
  this <- get ;;
  modify (set_draws (S (draws this))) ;;;
  ret (rng this (draws this)).

(** [_computeLowerDistance]: [this.radius = Math.PI / 4 *
    Math.pow(this.volume / this.n, 1 / this.dim)]. *)
Definition _computeLowerDistance : M sampler unit :=
  this <- get ;;
  modify (set_radius
    (mul (div Math_PI (Fin 4))
         (Math_pow (div (volume this) (of_nat (n this)))
                   (div (Fin 1) (of_nat (dim this)))))).

(** [_computeExtentVolume]: the [forEach] multiplies [volume], from 1, by
    [upper - lower] of each axis in turn. *)
Definition _computeExtentVolume : M sampler unit :=
  this <- get ;;
  modify (set_volume
    (fold_left (fun volume '(lower, upper) => mul volume (sub upper lower))
               (extent this) (Fin 1))).

(** [_sampleUniform]: [this.extent.map(bounds => bounds[0] + (bounds[1] -
    bounds[0]) * this.rng())], one call of [rng] per axis, in axis order. *)
Fixpoint sample_axes (axes : list bounds) : M sampler point :=
  match axes with
  | [] => ret []
  | (lower, upper) :: rest =>
      u <- call_rng ;;
      cs <- sample_axes rest ;;
      ret (add lower (mul (sub upper lower) u) :: cs)
  end.

Definition _sampleUniform : M sampler point :=
  this <- get ;;
  sample_axes (extent this).

(** [_distance(point1, point2)]: [Array(this.dim).fill().map((_, i) =>
    point2[i] - point1[i])] handed to [Math.hypot].  [point1] comes from
    [this.points] and may be [null], whose indexing throws. *)
Definition _distance (this : sampler) (point1 : option point) (point2 : point)
  : outcome num :=
  obind
    (map_outcome
       (fun i =>
          match point1 with
          | None => Throw TypeError
          | Some p1 => Ret (sub (at_index point2 i) (at_index p1 i))
          end)
       (seq 0 (dim this)))
    (fun diffArray => Ret (Math_hypot diffArray)).

(** [_distanceToExisting(candidate)] *)
Definition _distanceToExisting (this : sampler) (candidate : point) : outcome num :=
  fold_outcome
    (fun minDistance p =>
       obind (_distance this p candidate) (fun currentDistance =>
       Ret (Math_min [minDistance; currentDistance])))
    (points this) PosInf.

(** [_distanceToBoundary(candidate)]: [candidate.forEach((coordinate, i) =>
    ...)]; destructuring [this.extent[i]] throws when the axis is missing. *)
Fixpoint boundary_forEach (axes : list bounds) (coordinates : list num) (i : nat)
    (minDistance : num) : outcome num :=
  match coordinates with
  | [] => Ret minDistance
  | coordinate :: rest =>
      match nth_error axes i with
      | None => Throw TypeError
      | Some (lower, upper) =>
          boundary_forEach axes rest (S i)
            (Math_min [minDistance;
                       Math_abs (sub coordinate lower);
                       Math_abs (sub upper coordinate)])
      end
  end.

Definition _distanceToBoundary (this : sampler) (candidate : point) : outcome num :=
  boundary_forEach (extent this) candidate 0 PosInf.

(** The value of [distToNearest] when [next] compares it: the distance to
    the existing points and, under [repulsiveBoundary], the minimum of that
    and twice the distance to the boundary. *)
Definition distToNearest (this : sampler) (candidate : point) : outcome num :=
  obind (_distanceToExisting this candidate) (fun d =>
  if repulsiveBoundary this then
    obind (_distanceToBoundary this candidate) (fun b =>
    Ret (Math_min [d; mul (Fin 2) b]))
  else Ret d).

(** The [while (numTries < this.tries)] loop of [next]; [remaining] is
    [this.tries - numTries]. *)
Fixpoint try_loop (remaining : nat) (bestPoint : option point) (largestDist : num)
  : M sampler (option point) :=
  match remaining with
  | O => ret bestPoint
  | S remaining' =>
      candidate <- _sampleUniform ;;
      d <- read (fun this => distToNearest this candidate) ;;
      let bestPoint' := if gtb d largestDist then Some candidate else bestPoint in
      let largestDist' := if gtb d largestDist then d else largestDist in
      this <- get ;;
      if gtb d (radius this) then ret bestPoint'
      else try_loop remaining' bestPoint' largestDist'
  end.

(** [next()]; [None] is [null]. *)
Definition next : M sampler (option point) :=
  this <- get ;;
  if length (points this) =? n this then ret None
  else
    bestPoint <- try_loop (tries this) None NegInf ;;
    push bestPoint ;;;
    ret bestPoint.

(** [fill()]: [while (this.points.length < this.n) this.next()].  The loop is
    run on [fuel]; [None] means the fuel ran out with the condition still
    true. *)
Fixpoint fill_loop (fuel : nat) (this : sampler)
  : option (outcome (list (option point)) * sampler) :=
  if length (points this) <? n this then
    match fuel with
    | O => None
    | S fuel' =>
        match next this with
        | (Ret _, this') => fill_loop fuel' this'
        | (Throw e, this') => Some (Throw e, this')
        end
    end
  else Some (Ret (points this), this).

(** Each pass of the loop that does not throw adds a point, so
    [n - length] passes are enough (see [fill_loop_enough]). *)
Definition fill (this : sampler) : option (outcome (list (option point)) * sampler) :=
  fill_loop (n this - length (points this)) this.

Definition getPoints (this : sampler) : list (option point) := points this.

(** [this.extent] as the constructor computes it.  With [dim = 1] a given
    extent is wrapped, [[options.extent]]; a flat pair then is the one axis.
    Elsewhere a flat pair is an array of numbers, and [_computeExtentVolume]
    throws when it destructures the first of them. *)
Inductive extent_init : Type :=
| Axes (axes : list bounds)
| NumberAxes
| WrappedNested.

Definition init_extent (dim : nat) (arg : option extent_arg) : extent_init :=
  match arg with
  | None => Axes (default_extent dim)
  | Some (Flat lower upper) => if dim =? 1 then Axes [(lower, upper)] else NumberAxes
  | Some (Nested axes) => if dim =? 1 then WrappedNested else Axes axes
  end.

(** [new Poissimple(options, rng)].  A nested extent with [dim = 1] leaves
    the documented types (a one-dimensional extent is a flat pair): the
    wrapped array holds arrays where numbers are read, and the arithmetic
    runs through string conversion.  The model stops there: [None]. *)
Definition Poissimple (options : options) (rng : nat -> num)
  : option (outcome sampler) :=
  let n := or_default (opt_n options) 10 in
  let dim := or_default (opt_dimensions options) 2 in
  let tries := or_default (opt_tries options) 30 in
  let repulsiveBoundary :=
    match opt_repulsiveBoundary options with Some b => b | None => false end in
  match init_extent dim (opt_extent options) with
  | WrappedNested => None
  | NumberAxes => Some (Throw TypeError)
  | Axes extent =>
      let this := mkSampler n dim extent tries rng repulsiveBoundary NaN NaN [] 0 in
      Some (fst ((_computeExtentVolume ;;;
                  _computeLowerDistance ;;;
                  modify (set_points []) ;;;
                  get) this))
  end.

End Poissimple.

(** ** The earlier constructor [PoisSimple] *)

Module PoisSimple.

Local Open Scope js_scope.

(** [this.n] and [this.dim] are the destructured parameters as they come:
    [None] is [undefined]. *)
Record sampler : Type := mkSampler {
  n : option nat;
  dim : option nat;
  extent : list bounds;
  tries : nat;
  rng : nat -> num;
  volume : num;
  radius : num;
  points : list (option point);
  draws : nat
}.

(** A count read as a Number; [undefined] converts to NaN. *)
Definition of_count (k : option nat) : num :=
  match k with
  | Some k => of_nat k
  | None => NaN
  end.

(** The length of [Array(k)]; [Array(undefined)] is the one-element array
    [[undefined]]. *)
Definition array_length (k : option nat) : nat :=
  match k with
  | Some k => k
  | None => 1
  end.

Definition set_volume (v : num) (this : sampler) : sampler :=
  mkSampler (n this) (dim this) (extent this) (tries this) (rng this)
    v (radius this) (points this) (draws this).

Definition set_radius (r : num) (this : sampler) : sampler :=
  mkSampler (n this) (dim this) (extent this) (tries this) (rng this)
    (volume this) r (points this) (draws this).

Definition set_points (ps : list (option point)) (this : sampler) : sampler :=
  mkSampler (n this) (dim this) (extent this) (tries this) (rng this)
    (volume this) (radius this) ps (draws this).

Definition set_draws (k : nat) (this : sampler) : sampler :=
  mkSampler (n this) (dim this) (extent this) (tries this) (rng this)
    (volume this) (radius this) (points this) k.

Definition push (p : option point) : M sampler unit :=
  modify (fun this => set_points (points this ++ [p]) this).

Definition call_rng : M sampler num :=
  this <- get ;;
  modify (set_draws (S (draws this))) ;;;
  ret (rng this (draws this)).

Definition _computeLowerDistance : M sampler unit :=
  this <- get ;;
  modify (set_radius
    (mul (div Math_PI (Fin 4))
         (Math_pow (div (volume this) (of_count (n this)))
                   (div (Fin 1) (of_count (dim this)))))).

Definition _computeExtentVolume : M sampler unit :=
  this <- get ;;
  modify (set_volume
    (fold_left (fun volume '(lower, upper) => mul volume (sub upper lower))
               (extent this) (Fin 1))).

Fixpoint sample_axes (axes : list bounds) : M sampler point :=
  match axes with
  | [] => ret []
  | (lower, upper) :: rest =>
      u <- call_rng ;;
      cs <- sample_axes rest ;;
      ret (add lower (mul (sub upper lower) u) :: cs)
  end.

Definition _sampleUniform : M sampler point :=
  this <- get ;;
  sample_axes (extent this).

Definition _distance (this : sampler) (p1 : option point) (p2 : point)
  : outcome num :=
  obind
    (map_outcome
       (fun i =>
          match p1 with
          | None => Throw TypeError
          | Some q1 => Ret (sub (at_index p2 i) (at_index q1 i))
          end)
       (seq 0 (array_length (dim this))))
    (fun diffArray => Ret (Math_hypot diffArray)).

Definition _distanceToExisting (this : sampler) (candidate : point) : outcome num :=
  fold_outcome
    (fun minDistance p =>
       obind (_distance this p candidate) (fun currentDistance =>
       Ret (Math_min [minDistance; currentDistance])))
    (points this) PosInf.

Fixpoint try_loop (remaining : nat) (bestPoint : option point) (largestDist : num)
  : M sampler (option point) :=
  match remaining with
  | O => ret bestPoint
  | S remaining' =>
      candidate <- _sampleUniform ;;
      distToNearest <- read (fun this => _distanceToExisting this candidate) ;;
      let bestPoint' :=
        if gtb distToNearest largestDist then Some candidate else bestPoint in
      let largestDist' :=
        if gtb distToNearest largestDist then distToNearest else largestDist in
      this <- get ;;
      if gtb distToNearest (radius this) then ret bestPoint'
      else try_loop remaining' bestPoint' largestDist'
  end.

(** [this.points.length === this.n]: never true for [undefined]. *)
Definition length_is (k : nat) (n : option nat) : bool :=
  match n with
  | Some n => k =? n
  | None => false
  end.

(** [this.points.length < this.n]: false for [undefined]. *)
Definition length_below (k : nat) (n : option nat) : bool :=
  match n with
  | Some n => k <? n
  | None => false
  end.

Definition next : M sampler (option point) :=
  this <- get ;;
  if length_is (length (points this)) (n this) then ret None
  else
    bestPoint <- try_loop (tries this) None NegInf ;;
    push bestPoint ;;;
    ret bestPoint.

Fixpoint fill_loop (fuel : nat) (this : sampler)
  : option (outcome (list (option point)) * sampler) :=
  if length_below (length (points this)) (n this) then
    match fuel with
    | O => None
    | S fuel' =>
        match next this with
        | (Ret _, this') => fill_loop fuel' this'
        | (Throw e, this') => Some (Throw e, this')
        end
    end
  else Some (Ret (points this), this).

Definition fill (this : sampler) : option (outcome (list (option point)) * sampler) :=
  fill_loop (match n this with Some n => n - length (points this) | None => 0 end) this.

Definition getAllPoints (this : sampler) : list (option point) := points this.

(** [new PoisSimple({ n, dimensions, extent, tries }, rng)].  There is no
    one-dimensional case here: a flat extent is an array of numbers and
    [_computeExtentVolume] throws on its first element. *)
Definition PoisSimple (options : options) (rng : nat -> num) : outcome sampler :=
  let tries := or_default (opt_tries options) 30 in
  match opt_extent options with
  | Some (Flat _ _) => Throw TypeError
  | extent_option =>
      let extent :=
        match extent_option with
        | Some (Nested axes) => axes
        | _ => default_extent (array_length (opt_dimensions options))
        end in
      let this :=
        mkSampler (opt_n options) (opt_dimensions options) extent tries rng
          NaN NaN [] 0 in
      fst ((_computeExtentVolume ;;;
            _computeLowerDistance ;;;
            modify (set_points []) ;;;
            get) this)
  end.

End PoisSimple.

(** ** Manual point injection *)

(** The result of [addPoint]: success or the shape-mismatch error. *)
Inductive add_result : Type :=
| Added
| ShapeMismatchError.

(** Modelled from the spec: [addPoint] is not in the source files at hand
    (the README documents it: it "ensures that the value of point has the
    correct dimensions, but does not check distance to existing points").
    It validates only that the coordinate count equals [dim], fails with the
    shape-mismatch error otherwise, and appends the point to the
    accepted-points collection with no other check. *)
Definition addPoint (p : point) (this : Poissimple.sampler)
  : add_result * Poissimple.sampler :=
  if length p =? Poissimple.dim this
  then (Added, Poissimple.set_points (Poissimple.points this ++ [Some p]) this)
  else (ShapeMismatchError, this).

(** ** Vocabulary of the properties *)

(** The point [_sampleUniform] builds over [axes] when the next call of
    [rng] is call number [k]. *)
Fixpoint draw (rng : nat -> num) (k : nat) (axes : list bounds) : point :=
  match axes with
  | [] => []
  | (lower, upper) :: rest =>
      add lower (mul (sub upper lower) (rng k)) :: draw rng (S k) rest
  end.

(** Candidate number [j] (from 0) of the step [next] starts in [this]:
    each try draws one value per axis. *)
Definition candidate (this : Poissimple.sampler) (j : nat) : point :=
  draw (Poissimple.rng this)
       (Poissimple.draws this + j * length (Poissimple.extent this))
       (Poissimple.extent this).

(** [this] after [a] tries of a step: each try made one call of [rng] per
    axis. *)
Definition after_tries (this : Poissimple.sampler) (a : nat) : Poissimple.sampler :=
  Poissimple.set_draws
    (Poissimple.draws this + a * length (Poissimple.extent this)) this.

(** [this] after a step that accepted [p] at its try number [j] (from 0). *)
Definition accepted (this : Poissimple.sampler) (j : nat) (p : option point)
  : Poissimple.sampler :=
  Poissimple.set_points (Poissimple.points this ++ [p]) (after_tries this (S j)).

(** The calls a client makes, and [this] after them.  A call that throws
    leaves [this] as it was at the throw. *)
Inductive call : Type := CallNext | CallFill.

Definition after_call (c : call) (this : Poissimple.sampler) : Poissimple.sampler :=
  match c with
  | CallNext => snd (Poissimple.next this)
  | CallFill =>
      match Poissimple.fill this with
      | Some (_, this') => this'
      | None => this
      end
  end.

Definition after_calls (cs : list call) (this : Poissimple.sampler)
  : Poissimple.sampler :=
  fold_left (fun s c => after_call c s) cs this.

(** What [next] leaves of [this]: the configuration as it was, and the
    points either as they were or with one more at the end. *)
Record same_configuration (this this' : Poissimple.sampler) : Prop := {
  same_n : Poissimple.n this' = Poissimple.n this;
  same_dim : Poissimple.dim this' = Poissimple.dim this;
  same_extent : Poissimple.extent this' = Poissimple.extent this;
  same_tries : Poissimple.tries this' = Poissimple.tries this;
  same_rng : Poissimple.rng this' = Poissimple.rng this;
  same_repulsiveBoundary : Poissimple.repulsiveBoundary this' = Poissimple.repulsiveBoundary this;
  same_volume : Poissimple.volume this' = Poissimple.volume this;
  same_radius : Poissimple.radius this' = Poissimple.radius this
}.

(** The effective acceptance distance [next] computes for candidate number
    [j]; NaN stands in where the computation throws. *)
Definition effective_distance (this : Poissimple.sampler) (j : nat) : num :=
  match Poissimple.distToNearest this (candidate this j) with
  | Ret d => d
  | Throw _ => NaN
  end.

(** The data model of the specification, on [this]: a finite extent with one
    pair per dimension, a random source that returns finite numbers, and
    accepted points that are arrays of [dim] finite numbers. *)
Definition is_fin (x : num) : bool :=
  match x with Fin _ => true | _ => false end.

Definition finite_axis (b : bounds) : bool := is_fin (fst b) && is_fin (snd b).

Definition proper_point (dim : nat) (p : option point) : bool :=
  match p with
  | Some q => (length q =? dim) && forallb is_fin q
  | None => false
  end.

Record well_formed (this : Poissimple.sampler) : Prop := {
  wf_extent_length : length (Poissimple.extent this) = Poissimple.dim this;
  wf_extent_finite : forallb finite_axis (Poissimple.extent this) = true;
  wf_rng_finite : forall k, is_fin (Poissimple.rng this k) = true;
  wf_points : forallb (proper_point (Poissimple.dim this)) (Poissimple.points this) = true
}.

(** A distance as the formulas produce it from finite data: [+Infinity] or
    a finite number that is not negative. *)
Definition is_distance (x : num) : Prop :=
  x = PosInf \/ exists r, x = Fin r /\ (0 <= r)%R.

(** [_distance] on a point that is not [null]. *)
Definition distance (dim : nat) (p1 p2 : point) : num :=
  Math_hypot (map (fun i => sub (at_index p2 i) (at_index p1 i)) (seq 0 dim)).

(** ** A worked run

    [new Poissimple({n: 3, dimensions: 1, extent: [0, 1], tries: 2}, rng)]
    with [rng] returning 1/4, 1/2, 7/8, 1/2, 5/8 and then 1/2 for ever.  The
    radius is [PI/4 * (1/3)^(1/1) = PI/12]. *)
Definition run_options : options :=
  mkOptions (Some 3) (Some 1) (Some (Flat (Fin 0) (Fin 1))) None (Some 2) None.

Definition run_rng (k : nat) : num :=
  match k with
  | 0 => Fin (1 / 4)
  | 1 => Fin (1 / 2)
  | 2 => Fin (7 / 8)
  | 3 => Fin (1 / 2)
  | 4 => Fin (5 / 8)
  | _ => Fin (1 / 2)
  end.

(** [this] with the accepted points [ps] after [k] calls of [rng]. *)
Definition run_state (ps : list (option point)) (k : nat) : Poissimple.sampler :=
  Poissimple.mkSampler 3 1 [(Fin 0, Fin 1)] 2 run_rng false
    (Fin 1) (Fin (PI / 12)) ps k.

Definition run_start : Poissimple.sampler := run_state [] 0.

(** After the first step: 1/4 is in (the empty collection is infinitely
    far). *)
Definition run_one : Poissimple.sampler := run_state [Some [Fin (1 / 4)]] 1.

(** After the second step: 1/2 was 1/4 away, 7/8 is 5/8 away and is in. *)
Definition run_two : Poissimple.sampler :=
  run_state [Some [Fin (1 / 4)]; Some [Fin (7 / 8)]] 3.

(** ** The extent in real numbers *)

(** An extent whose bounds are the finite numbers [rs]. *)
Definition real_axes (rs : list (R * R)) : list bounds :=
  map (fun b => (Fin (fst b), Fin (snd b))) rs.

(** The measure [V] of the extent: the product of the spans
    [upper - lower] over all axes. *)
Definition measure (rs : list (R * R)) : R :=
  fold_right (fun b v => ((snd b - fst b) * v)%R) 1%R rs.

(** Every axis has [lower < upper]. *)
Definition proper_axes (rs : list (R * R)) : Prop :=
  Forall (fun b => (fst b < snd b)%R) rs.

(** ** The acceptance distance in the words of the specification *)

(** The distance from coordinate [x] to the nearer of the two edges of its
    axis. *)
Definition nearer_edge_distance (b : bounds) (x : num) : num :=
  Math_min [Math_abs (sub x (fst b)); Math_abs (sub (snd b) x)].

(** The boundary distance: the minimum over all axes of the distance to the
    nearer edge. *)
Definition boundary_distance (axes : list bounds) (c : point) : num :=
  Math_min (map (fun bx => nearer_edge_distance (fst bx) (snd bx)) (combine axes c)).

(** The effective acceptance distance: the nearest-neighbour distance, and
    under boundary repulsion the minimum of it and twice the boundary
    distance. *)
Definition acceptance_distance (repulsive : bool) (nearest : num)
    (axes : list bounds) (c : point) : num :=
  if repulsive then Math_min [nearest; mul (Fin 2) (boundary_distance axes c)]
  else nearest.

(** ** A run with boundary repulsion

    [new Poissimple({n: 1, dimensions: 1, extent: [0, 1], tries: 2,
    repulsiveBoundary: true}, rng)] with [rng] returning 0 and then 1/2.
    The radius is [PI/4]. *)
Definition edge_options : options :=
  mkOptions (Some 1) (Some 1) (Some (Flat (Fin 0) (Fin 1))) None (Some 2) (Some true).

Definition edge_rng (k : nat) : num :=
  match k with
  | 0 => Fin 0
  | _ => Fin (1 / 2)
  end.

Definition edge_start : Poissimple.sampler :=
  Poissimple.mkSampler 1 1 [(Fin 0, Fin 1)] 2 edge_rng true
    (Fin 1) (Fin (PI / 4)) [] 0.

(** ** The two constructors side by side *)

(** The [PoisSimple] object with the same field values as [this]. *)
Definition earlier (this : Poissimple.sampler) : PoisSimple.sampler :=
  PoisSimple.mkSampler
    (Some (Poissimple.n this)) (Some (Poissimple.dim this))
    (Poissimple.extent this) (Poissimple.tries this) (Poissimple.rng this)
    (Poissimple.volume this) (Poissimple.radius this)
    (Poissimple.points this) (Poissimple.draws this).

(** What a client sees of a call: the value [next()] returns or throws, the
    array [fill()] returns or throws ([None]: the model of the loop ran out
    of fuel). *)
Inductive reply : Type :=
| NextReply (r : outcome (option point))
| FillReply (r : option (outcome (list (option point)))).

Fixpoint Poissimple_replies (cs : list call) (this : Poissimple.sampler) : list reply :=
  match cs with
  | [] => []
  | CallNext :: cs' =>
      NextReply (fst (Poissimple.next this))
        :: Poissimple_replies cs' (snd (Poissimple.next this))
  | CallFill :: cs' =>
      match Poissimple.fill this with
      | Some (r, this') => FillReply (Some r) :: Poissimple_replies cs' this'
      | None => FillReply None :: Poissimple_replies cs' this
      end
  end.

Fixpoint PoisSimple_replies (cs : list call) (this : PoisSimple.sampler) : list reply :=
  match cs with
  | [] => []
  | CallNext :: cs' =>
      NextReply (fst (PoisSimple.next this))
        :: PoisSimple_replies cs' (snd (PoisSimple.next this))
  | CallFill :: cs' =>
      match PoisSimple.fill this with
      | Some (r, this') => FillReply (Some r) :: PoisSimple_replies cs' this'
      | None => FillReply None :: PoisSimple_replies cs' this
      end
  end.

(** [{n: 3, dimensions: 2, tries: 2}]: the extent and [repulsiveBoundary]
    are left to their defaults. *)
Definition plane_options : options :=
  mkOptions (Some 3) (Some 2) None None (Some 2) None.

(** ** Vocabulary of the further properties *)

(** [{n: 2, dimensions: 1, extent: [0, 1], tries: 2, repulsiveBoundary:
    true}] with [rng] returning 0 and then 1/2; the radius is [PI/8]. *)
Definition guard_options : options :=
  mkOptions (Some 2) (Some 1) (Some (Flat (Fin 0) (Fin 1))) None (Some 2) (Some true).

Definition guard_start : Poissimple.sampler :=
  Poissimple.mkSampler 2 1 [(Fin 0, Fin 1)] 2 edge_rng true
    (Fin 1) (Fin (PI / 8)) [] 0.

(** The Euclidean distance between two points given by their real
    coordinates: the square root of the sum of the squared differences. *)
Definition euclid (xs ys : list R) : R :=
  sqrt (fold_right Rplus 0%R
          (map (fun xy => ((snd xy - fst xy) * (snd xy - fst xy))%R) (combine xs ys))).

(** An accepted point that is an array of finite coordinates, one per axis
    of the extent [rs], each within the bounds of its axis. *)
Definition in_extent (rs : list (R * R)) (p : option point) : Prop :=
  exists q,
    p = Some q /\
    Forall2 (fun b x => exists v, x = Fin v /\ (fst b <= v <= snd b)%R) rs q.

(** [{n: 3, dimensions: 2, extent: [[0, 1]], tries: 2}], an extent one axis
    short of [dimensions], after a first point was accepted. *)
Definition short_extent_state : Poissimple.sampler :=
  Poissimple.mkSampler 3 2 [(Fin 0, Fin 1)] 2 run_rng false
    (Fin 1) (Fin (PI / 4 * Rpower (1 / 3) (1 / 2))) [Some [Fin (1 / 4)]] 1.

(** Every accepted point is an array of finite numbers (of any length). *)
Definition all_finite_points (ps : list (option point)) : bool :=
  forallb (fun p => match p with Some q => forallb is_fin q | None => false end) ps.

(** [{n: 0, dimensions: 2, extent: [[0, 1], [0, 1]], tries: 2}], a count of
    zero given explicitly. *)
Definition zero_options : options :=
  mkOptions (Some 0) (Some 2) (Some (Nested [(Fin 0, Fin 1); (Fin 0, Fin 1)]))
    None (Some 2) None.

(** [{n: 3, dimensions: 1, extent: [0, 0]}], an extent of width zero. *)
Definition degenerate_options : options :=
  mkOptions (Some 3) (Some 1) (Some (Flat (Fin 0) (Fin 0))) None None None.

(** * Properties *)

(** ** Numbers *)

Lemma gtb_Fin (x y : R) : gtb (Fin x) (Fin y) = true <-> (y < x)%R.
Proof.
  simpl. destruct (Rlt_dec y x); split; intros; auto; try discriminate; contradiction.
Qed.

Lemma gtb_Fin_false (x y : R) : gtb (Fin x) (Fin y) = false <-> (x <= y)%R.
Proof.
  simpl. destruct (Rlt_dec y x); split; intros; auto; try discriminate; lra.
Qed.

Lemma gtb_irrefl (a : num) : gtb a a = false.
Proof. destruct a; simpl; auto. destruct (Rlt_dec r r); auto; lra. Qed.

(** A value over the threshold beats whatever stayed under it. *)
Lemma gtb_over_under (a b r x : num) :
  gtb a r = true -> gtb b r = false -> gtb b x = true -> gtb a b = true.
Proof.
  destruct a, b, r, x; simpl; try discriminate; auto;
    repeat match goal with |- context [Rlt_dec ?u ?v] => destruct (Rlt_dec u v) end;
    intros; try discriminate; auto; lra.
Qed.

Lemma gtb_over_NegInf (a r : num) : gtb a r = true -> gtb a NegInf = true.
Proof. destruct a, r; simpl; auto. Qed.

Lemma gtb_trans (a b c : num) : gtb a b = true -> gtb b c = true -> gtb a c = true.
Proof.
  destruct a, b, c; simpl; try discriminate; auto;
    repeat match goal with |- context [Rlt_dec ?u ?v] => destruct (Rlt_dec u v) end;
    intros; try discriminate; auto; lra.
Qed.

Lemma gtb_asym (a b : num) : gtb a b = true -> gtb b a = false.
Proof.
  destruct a, b; simpl; try discriminate; auto;
    repeat match goal with |- context [Rlt_dec ?u ?v] => destruct (Rlt_dec u v) end;
    intros; try discriminate; auto; lra.
Qed.

(** ** The methods, step by step *)

Section Steps.

Import Poissimple.

Lemma sample_axes_draw (axes : list bounds) (this : sampler) :
  sample_axes axes this =
    (Ret (draw (rng this) (draws this) axes),
     set_draws (draws this + length axes) this).
Proof.
  revert this. induction axes as [|[lower upper] rest IH]; intros this.
  - simpl. unfold ret, set_draws. rewrite Nat.add_0_r. destruct this; reflexivity.
  - simpl. unfold bind at 1. unfold call_rng, bind, get, modify, ret. simpl.
    rewrite IH. simpl. unfold set_draws. simpl.
    rewrite <- plus_n_Sm. reflexivity.
Qed.

Lemma _sampleUniform_draw (this : sampler) :
  _sampleUniform this =
    (Ret (draw (rng this) (draws this) (extent this)),
     set_draws (draws this + length (extent this)) this).
Proof. unfold _sampleUniform, bind, get. apply sample_axes_draw. Qed.

Lemma distToNearest_set_draws (k : nat) (this : sampler) (c : point) :
  distToNearest (set_draws k this) c = distToNearest this c.
Proof. reflexivity. Qed.

Lemma try_loop_S (k : nat) (best : option point) (largest : num) (this : sampler) :
  try_loop (S k) best largest this =
    let c := draw (rng this) (draws this) (extent this) in
    let this1 := set_draws (draws this + length (extent this)) this in
    match distToNearest this c with
    | Throw e => (Throw e, this1)
    | Ret d =>
        let best' := if gtb d largest then Some c else best in
        let largest' := if gtb d largest then d else largest in
        if gtb d (radius this) then (Ret best', this1)
        else try_loop k best' largest' this1
    end.
Proof.
  cbn [try_loop]. unfold bind at 1. rewrite _sampleUniform_draw.
  unfold bind at 1. unfold read. rewrite distToNearest_set_draws.
  destruct (distToNearest this _) as [d|e]; [|reflexivity].
  unfold bind, get. cbn zeta. cbn [radius set_draws].
  destruct (gtb d (radius this)); reflexivity.
Qed.

Lemma candidate_0 (this : sampler) :
  candidate this 0 = draw (rng this) (draws this) (extent this).
Proof. unfold candidate. rewrite Nat.add_0_r. reflexivity. Qed.

Lemma set_draws_set_draws (a b : nat) (this : sampler) :
  set_draws a (set_draws b this) = set_draws a this.
Proof. reflexivity. Qed.

Lemma set_draws_same (this : sampler) : set_draws (draws this) this = this.
Proof. destruct this; reflexivity. Qed.

Lemma next_full (this : sampler) :
  length (points this) = n this -> next this = (Ret None, this).
Proof.
  intros H. unfold next, bind, get. rewrite H, Nat.eqb_refl. reflexivity.
Qed.

Lemma next_not_full (this : sampler) :
  length (points this) <> n this ->
  next this =
    match try_loop (tries this) None NegInf this with
    | (Ret best, this') => (Ret best, set_points (points this' ++ [best]) this')
    | (Throw e, this') => (Throw e, this')
    end.
Proof.
  intros H. unfold next, bind at 1, get.
  apply Nat.eqb_neq in H. rewrite H.
  unfold bind at 1. destruct (try_loop _ _ _ this) as [[best|e] this']; reflexivity.
Qed.

(** The loop touches nothing of [this] but the count of draws. *)
Lemma try_loop_frame (k : nat) (best : option point) (largest : num) (this : sampler) :
  exists m, snd (try_loop k best largest this) = set_draws m this.
Proof.
  revert best largest this. induction k as [|k IH]; intros best largest this.
  - exists (draws this). simpl. symmetry. apply set_draws_same.
  - rewrite try_loop_S. cbn zeta.
    destruct (distToNearest this _) as [d|e].
    + destruct (gtb d (radius this)).
      * eexists. reflexivity.
      * destruct (IH (if gtb d largest
                      then Some (draw (rng this) (draws this) (extent this))
                      else best)
                     (if gtb d largest then d else largest)
                     (set_draws (draws this + length (extent this)) this)) as [m Hm].
        exists m. rewrite Hm. reflexivity.
    + eexists. reflexivity.
Qed.

Lemma same_configuration_refl (this : sampler) : same_configuration this this.
Proof. split; reflexivity. Qed.

Lemma same_configuration_trans (a b c : sampler) :
  same_configuration a b -> same_configuration b c -> same_configuration a c.
Proof. intros [] []; split; congruence. Qed.

Lemma next_cases (this : sampler) :
  same_configuration this (snd (next this)) /\
  ((length (points this) = n this /\ next this = (Ret None, this)) \/
   (length (points this) <> n this /\
    ((exists e, fst (next this) = Throw e /\ points (snd (next this)) = points this) \/
     (exists best, fst (next this) = Ret best /\
                   points (snd (next this)) = points this ++ [best])))).
Proof.
  destruct (Nat.eq_dec (length (points this)) (n this)) as [H|H].
  - rewrite (next_full _ H). split; [apply same_configuration_refl|]. left. auto.
  - rewrite (next_not_full _ H).
    destruct (try_loop_frame (tries this) None NegInf this) as [m Hm].
    destruct (try_loop (tries this) None NegInf this) as [[best|e] this'];
      simpl in Hm; subst this'; (split; [split; reflexivity|]); right; split; auto.
    + right. exists best. split; reflexivity.
    + left. exists e. split; reflexivity.
Qed.

Lemma next_length_bound (this : sampler) :
  length (points this) <= n this ->
  length (points (snd (next this))) <= n (snd (next this)).
Proof.
  intros Hle. destruct (next_cases this) as [Hc [[Hfull Hn]|[Hnot [[e [_ Hp]]|[b [_ Hp]]]]]].
  - rewrite Hn. exact Hle.
  - rewrite Hp, (same_n _ _ Hc). exact Hle.
  - rewrite Hp, (same_n _ _ Hc), length_app. simpl. lia.
Qed.

(** [fill] on enough fuel: the loop ends, within the bound, and when it
    returns the collection holds exactly [n] points. *)
Lemma fill_loop_enough (fuel : nat) (this : sampler) :
  length (points this) <= n this ->
  n this - length (points this) <= fuel ->
  exists r this',
    fill_loop fuel this = Some (r, this') /\
    same_configuration this this' /\
    length (points this') <= n this' /\
    (forall ps, r = Ret ps -> ps = points this' /\ length ps = n this').
Proof.
  revert this. induction fuel as [|fuel IH]; intros this Hle Hfuel.
  - assert (Hfull : length (points this) = n this) by lia.
    simpl. rewrite Hfull, Nat.ltb_irrefl.
    exists (Ret (points this)), this.
    split; [reflexivity|]. split; [apply same_configuration_refl|].
    split; [lia|]. intros ps' Hps. injection Hps as <-. auto.
  - cbn [fill_loop]. destruct (length (points this) <? n this) eqn:Hlt.
    + apply Nat.ltb_lt in Hlt.
      pose proof (next_length_bound this Hle) as Hb.
      destruct (next_cases this) as [Hc [[Hfull _]|[_ [[e [Hf Hp]]|[b [Hf Hp]]]]]].
      * lia.
      * destruct (next this) as [r this1]. simpl in *. subst r.
        exists (Throw e), this1.
        split; [reflexivity|]. split; [exact Hc|]. split; [exact Hb|].
        intros ps' Hps. discriminate.
      * destruct (next this) as [r this1]. simpl in *. subst r.
        destruct (IH this1) as [r [this' [Hfl [Hc' [Hle' Hret]]]]]; auto.
        { rewrite Hp, (same_n _ _ Hc), length_app. simpl. lia. }
        exists r, this'.
        split; [exact Hfl|].
        split; [exact (same_configuration_trans _ _ _ Hc Hc')|].
        split; [exact Hle'|exact Hret].
    + apply Nat.ltb_ge in Hlt.
      exists (Ret (points this)), this.
      split; [reflexivity|]. split; [apply same_configuration_refl|].
      split; [exact Hle|]. intros ps' Hps. injection Hps as <-. split; [reflexivity|lia].
Qed.

Lemma fill_total (this : sampler) :
  length (points this) <= n this ->
  exists r this',
    fill this = Some (r, this') /\
    same_configuration this this' /\
    length (points this') <= n this' /\
    (forall ps, r = Ret ps -> ps = points this' /\ length ps = n this').
Proof. intros H. apply fill_loop_enough; auto. Qed.

Lemma after_call_invariant (c : call) (this : sampler) :
  length (points this) <= n this ->
  same_configuration this (after_call c this) /\
  length (points (after_call c this)) <= n (after_call c this).
Proof.
  intros H. destruct c; simpl.
  - split; [apply next_cases | apply next_length_bound; exact H].
  - destruct (fill_total this H) as [r [this' [Hf [Hc [Hle _]]]]].
    rewrite Hf. auto.
Qed.

Lemma after_calls_invariant (cs : list call) (this : sampler) :
  length (points this) <= n this ->
  same_configuration this (after_calls cs this) /\
  length (points (after_calls cs this)) <= n (after_calls cs this).
Proof.
  revert this. induction cs as [|c cs IH]; intros this H.
  - simpl. split; [apply same_configuration_refl | exact H].
  - simpl. destruct (after_call_invariant c this H) as [Hc Hle].
    destruct (IH _ Hle) as [Hc' Hle'].
    split; [eapply same_configuration_trans; eauto | exact Hle'].
Qed.

End Steps.

(** ** The try loop: early exit and best candidate *)

Section Acceptance.

Import Poissimple.

Lemma candidate_next (this : sampler) (i : nat) :
  candidate (set_draws (draws this + length (extent this)) this) i =
  candidate this (S i).
Proof. unfold candidate. cbn [rng draws extent set_draws]. f_equal. lia. Qed.

(** Early exit.  [largest] is either still [-Infinity] or a distance that
    was recorded (it beat something) and did not pass the radius. *)
Lemma try_loop_exit (j : nat) :
  forall (k : nat) (this : sampler) (best : option point) (largest dj : num),
    largest = NegInf \/
      (gtb largest (radius this) = false /\ exists x, gtb largest x = true) ->
    j < k ->
    (forall i, i < j ->
       exists d, distToNearest this (candidate this i) = Ret d /\
                 gtb d (radius this) = false) ->
    distToNearest this (candidate this j) = Ret dj ->
    gtb dj (radius this) = true ->
    try_loop k best largest this =
      (Ret (Some (candidate this j)),
       set_draws (draws this + S j * length (extent this)) this).
Proof.
  induction j as [|j IH]; intros k this best largest dj Hl Hjk Hbefore Hdj Hover.
  - destruct k as [|k]; [lia|].
    rewrite try_loop_S. cbn zeta. rewrite <- candidate_0, Hdj, Hover.
    assert (Hbeat : gtb dj largest = true).
    { destruct Hl as [->|[Hu [x Hx]]].
      - eapply gtb_over_NegInf; eauto.
      - eapply gtb_over_under; eauto. }
    rewrite Hbeat. simpl. rewrite Nat.add_0_r. reflexivity.
  - destruct k as [|k]; [lia|].
    rewrite try_loop_S. cbn zeta. rewrite <- candidate_0.
    destruct (Hbefore 0) as [d0 [Hd0 Hu0]]; [lia|].
    rewrite Hd0, Hu0.
    set (this1 := set_draws (draws this + length (extent this)) this).
    rewrite (IH k this1 _ _ dj).
    + unfold this1. rewrite candidate_next, set_draws_set_draws.
      cbn [draws extent set_draws]. f_equal. f_equal. simpl. lia.
    + change (radius this1) with (radius this).
      destruct (gtb d0 largest) eqn:Hb.
      * right. split; [exact Hu0|]. exists largest. exact Hb.
      * exact Hl.
    + lia.
    + intros i Hi. unfold this1. rewrite candidate_next.
      apply (Hbefore (S i)). lia.
    + unfold this1. rewrite candidate_next. exact Hdj.
    + exact Hover.
Qed.

End Acceptance.

(** ** Distances on the data model *)

Section Distances.

Import Poissimple.

Lemma map_outcome_Ret {A B : Type} (g : A -> B) (l : list A) :
  map_outcome (fun a => Ret (g a)) l = Ret (map g l).
Proof. induction l as [|a l IH]; simpl; [reflexivity|]. rewrite IH. reflexivity. Qed.

Lemma _distance_Some (this : sampler) (p1 p2 : point) :
  _distance this (Some p1) p2 = Ret (distance (dim this) p1 p2).
Proof. unfold _distance, distance. rewrite map_outcome_Ret. reflexivity. Qed.

Lemma _distance_None (this : sampler) (p2 : point) :
  _distance this None p2 =
    if dim this =? 0 then Ret (Fin (sqrt 0)) else Throw TypeError.
Proof.
  unfold _distance. destruct (dim this) as [|k]; reflexivity.
Qed.

Lemma min2_PosInf (x : num) : min2 PosInf x = x.
Proof. destruct x; reflexivity. Qed.

Lemma Math_min_pair (a b : num) : Math_min [a; b] = min2 a b.
Proof. unfold Math_min. cbn [fold_left]. rewrite min2_PosInf. reflexivity. Qed.

Lemma min2_assoc (a b c : num) : min2 (min2 a b) c = min2 a (min2 b c).
Proof.
  destruct a, b, c; simpl; try reflexivity;
    repeat match goal with
           | |- context [Rlt_dec ?u ?v] => destruct (Rlt_dec u v); simpl
           end; try reflexivity; try lra.
Qed.

Lemma min2_distance (a b : num) : is_distance a -> is_distance b -> is_distance (min2 a b).
Proof.
  intros [->|[x [-> Hx]]] [->|[y [-> Hy]]]; simpl.
  - left; reflexivity.
  - right; eauto.
  - right; eauto.
  - destruct (Rlt_dec y x); right; eauto.
Qed.

Lemma is_distance_numeric (a : num) : is_distance a -> gtb a NegInf = true.
Proof. intros [->|[x [-> _]]]; reflexivity. Qed.

Lemma is_fin_Fin (x : num) : is_fin x = true -> exists r, x = Fin r.
Proof. destruct x; try discriminate. eauto. Qed.

Lemma at_index_finite (p : point) (i : nat) :
  forallb is_fin p = true -> i < length p -> is_fin (at_index p i) = true.
Proof.
  unfold at_index. revert i. induction p as [|x p IH]; intros i Hp Hi; simpl in *; [lia|].
  apply andb_prop in Hp as [Hx Hp]. destruct i; auto. apply IH; auto. lia.
Qed.

Lemma sub_finite (a b : num) : is_fin a = true -> is_fin b = true -> is_fin (sub a b) = true.
Proof. destruct a, b; try discriminate; reflexivity. Qed.

Lemma add_finite (a b : num) : is_fin a = true -> is_fin b = true -> is_fin (add a b) = true.
Proof. destruct a, b; try discriminate; reflexivity. Qed.

Lemma mul_finite (a b : num) : is_fin a = true -> is_fin b = true -> is_fin (mul a b) = true.
Proof. destruct a, b; try discriminate; reflexivity. Qed.

Lemma finite_no_inf (l : list num) : forallb is_fin l = true -> existsb is_inf l = false.
Proof.
  induction l as [|x l IH]; simpl; auto. intros H.
  apply andb_prop in H as [Hx Hl]. rewrite (IH Hl). destruct x; simpl in *; congruence.
Qed.

Lemma finite_no_nan (l : list num) : forallb is_fin l = true -> existsb is_nan l = false.
Proof.
  induction l as [|x l IH]; simpl; auto. intros H.
  apply andb_prop in H as [Hx Hl]. rewrite (IH Hl). destruct x; simpl in *; congruence.
Qed.

Lemma Math_hypot_finite (l : list num) :
  forallb is_fin l = true -> is_distance (Math_hypot l).
Proof.
  intros H. unfold Math_hypot. rewrite (finite_no_inf l H), (finite_no_nan l H).
  right. eexists. split; [reflexivity|apply sqrt_pos].
Qed.

Lemma distance_is_distance (dim : nat) (p1 p2 : point) :
  forallb is_fin p1 = true -> length p1 = dim ->
  forallb is_fin p2 = true -> length p2 = dim ->
  is_distance (distance dim p1 p2).
Proof.
  intros H1 L1 H2 L2. unfold distance. apply Math_hypot_finite.
  apply forallb_forall. intros x Hx. apply in_map_iff in Hx as [i [<- Hi]].
  apply in_seq in Hi. apply sub_finite; apply at_index_finite; auto; lia.
Qed.

Lemma draw_length (rng : nat -> num) (k : nat) (axes : list bounds) :
  length (draw rng k axes) = length axes.
Proof.
  revert k. induction axes as [|[lower upper] rest IH]; intros k; simpl; auto.
Qed.

Lemma draw_finite (rng : nat -> num) (k : nat) (axes : list bounds) :
  (forall i, is_fin (rng i) = true) ->
  forallb finite_axis axes = true ->
  forallb is_fin (draw rng k axes) = true.
Proof.
  intros Hr. revert k. induction axes as [|[lower upper] rest IH]; intros k Ha; simpl in *; auto.
  apply andb_prop in Ha as [Hb Ha]. unfold finite_axis in Hb. simpl in Hb.
  apply andb_prop in Hb as [Hlo Hup].
  rewrite IH by auto. rewrite andb_true_r.
  apply add_finite; auto. apply mul_finite; auto. apply sub_finite; auto.
Qed.

(** On the data model the distance to the existing points comes back, and
    is a distance. *)
Lemma _distanceToExisting_fold (this : sampler) (c : point) (ps : list (option point)) :
  forallb is_fin c = true -> length c = dim this ->
  forallb (proper_point (dim this)) ps = true ->
  forall acc, is_distance acc ->
  exists d,
    fold_outcome
      (fun minDistance p =>
         obind (_distance this p c) (fun currentDistance =>
         Ret (Math_min [minDistance; currentDistance])))
      ps acc = Ret d /\ is_distance d.
Proof.
  intros Hc Lc. induction ps as [|p ps IH]; intros Hps acc Hacc; simpl in *.
  - eauto.
  - apply andb_prop in Hps as [Hp Hps].
    destruct p as [q|]; [|discriminate]. simpl in Hp.
    apply andb_prop in Hp as [Lq Hq]. apply Nat.eqb_eq in Lq.
    rewrite _distance_Some. simpl. rewrite Math_min_pair.
    apply IH; auto. apply min2_distance; auto.
    apply distance_is_distance; auto.
Qed.

Lemma _distanceToExisting_empty (this : sampler) (c : point) :
  points this = [] -> _distanceToExisting this c = Ret PosInf.
Proof. intros H. unfold _distanceToExisting. rewrite H. reflexivity. Qed.

Lemma Math_abs_sub_distance (a b : num) :
  is_fin a = true -> is_fin b = true -> is_distance (Math_abs (sub a b)).
Proof.
  destruct a, b; try discriminate. intros _ _. simpl.
  right. eexists. split; [reflexivity|apply Rabs_pos].
Qed.

Lemma Math_min_triple (a b c : num) : Math_min [a; b; c] = min2 a (min2 b c).
Proof.
  unfold Math_min. cbn [fold_left]. rewrite min2_PosInf. apply min2_assoc.
Qed.

Lemma boundary_forEach_distance (axes : list bounds) (cs : list num) :
  forallb finite_axis axes = true ->
  forallb is_fin cs = true ->
  forall i acc, i + length cs <= length axes -> is_distance acc ->
  exists d, boundary_forEach axes cs i acc = Ret d /\ is_distance d.
Proof.
  intros Ha. induction cs as [|x cs IH]; intros Hcs i acc Hi Hacc; simpl in *.
  - eauto.
  - apply andb_prop in Hcs as [Hx Hcs].
    destruct (nth_error axes i) as [[lower upper]|] eqn:Hnth.
    + assert (Hb : finite_axis (lower, upper) = true).
      { apply nth_error_In in Hnth. rewrite forallb_forall in Ha. apply Ha; auto. }
      unfold finite_axis in Hb. simpl in Hb. apply andb_prop in Hb as [Hlo Hup].
      apply IH; auto; [lia|]. rewrite Math_min_triple.
      apply min2_distance; auto. apply min2_distance; apply Math_abs_sub_distance; auto.
    + apply nth_error_None in Hnth. lia.
Qed.

Lemma double_distance (b : num) : is_distance b -> is_distance (mul (Fin 2) b).
Proof.
  intros [->|[r [-> Hr]]]; simpl.
  - destruct (Rlt_dec 0 2); [left; reflexivity|lra].
  - right. eexists. split; [reflexivity|lra].
Qed.

Lemma distToNearest_distance (this : sampler) (c : point) :
  well_formed this ->
  forallb is_fin c = true -> length c = dim this ->
  exists d, distToNearest this c = Ret d /\ is_distance d.
Proof.
  intros [Hlen Hext Hrng Hpts] Hc Lc. unfold distToNearest, _distanceToExisting.
  destruct (_distanceToExisting_fold this c (points this) Hc Lc Hpts PosInf)
    as [d [Hd Hdist]]; [left; reflexivity|].
  rewrite Hd. simpl. destruct (repulsiveBoundary this); [|eauto].
  unfold _distanceToBoundary.
  destruct (boundary_forEach_distance (extent this) c Hext Hc 0 PosInf)
    as [b [Hb Hbd]]; [simpl; lia|left; reflexivity|].
  rewrite Hb. simpl. rewrite Math_min_pair. eexists. split; [reflexivity|].
  apply min2_distance; auto. apply double_distance; auto.
Qed.

Lemma candidate_proper (this : sampler) (j : nat) :
  well_formed this ->
  forallb is_fin (candidate this j) = true /\ length (candidate this j) = dim this.
Proof.
  intros [Hlen Hext Hrng Hpts]. unfold candidate. split.
  - apply draw_finite; auto.
  - rewrite draw_length. exact Hlen.
Qed.

Lemma effective_distance_Ret (this : sampler) (j : nat) :
  well_formed this ->
  distToNearest this (candidate this j) = Ret (effective_distance this j) /\
  is_distance (effective_distance this j).
Proof.
  intros Hwf. destruct (candidate_proper this j Hwf) as [Hc Lc].
  destruct (distToNearest_distance this _ Hwf Hc Lc) as [d [Hd Hdist]].
  unfold effective_distance. rewrite Hd. auto.
Qed.

End Distances.

(** ** Whether the distance computation throws does not depend on the
    candidate *)

Section Throws.

Import Poissimple.

Lemma _distance_returns (this : sampler) (p : option point) (c c' : point) :
  (exists d, _distance this p c = Ret d) -> exists d', _distance this p c' = Ret d'.
Proof.
  destruct p as [q|].
  - intros _. rewrite _distance_Some. eauto.
  - rewrite !_distance_None. destruct (dim this =? 0); eauto.
Qed.

Lemma _distanceToExisting_returns (this : sampler) (c c' : point) :
  (exists d, _distanceToExisting this c = Ret d) ->
  exists d', _distanceToExisting this c' = Ret d'.
Proof.
  unfold _distanceToExisting. generalize PosInf at 1 as acc. generalize PosInf as acc'.
  induction (points this) as [|p ps IH]; intros acc' acc [d Hd]; simpl in *.
  - eauto.
  - destruct (_distance this p c) as [x|e] eqn:Hx; [|discriminate].
    destruct (_distance_returns this p c c') as [x' Hx']; [eauto|].
    rewrite Hx'. simpl in *. eapply IH. eauto.
Qed.

Lemma boundary_forEach_returns (axes : list bounds) (cs : list num) :
  forall i acc, i + length cs <= length axes ->
  exists d, boundary_forEach axes cs i acc = Ret d.
Proof.
  induction cs as [|x cs IH]; intros i acc Hi; simpl in *.
  - eauto.
  - destruct (nth_error axes i) as [[lower upper]|] eqn:Hnth.
    + apply IH. lia.
    + apply nth_error_None in Hnth. lia.
Qed.

Lemma distToNearest_returns (this : sampler) (c c' : point) :
  length c' <= length (extent this) ->
  (exists d, distToNearest this c = Ret d) ->
  exists d', distToNearest this c' = Ret d'.
Proof.
  intros Hlen [d Hd]. unfold distToNearest in *.
  destruct (_distanceToExisting this c) as [x|e] eqn:Hx; [|discriminate].
  destruct (_distanceToExisting_returns this c c') as [x' Hx']; [eauto|].
  rewrite Hx'. simpl. destruct (repulsiveBoundary this); [|eauto].
  unfold _distanceToBoundary.
  destruct (boundary_forEach_returns (extent this) c' 0 PosInf) as [b Hb]; [simpl; lia|].
  rewrite Hb. simpl. eauto.
Qed.

Lemma candidate_length (this : sampler) (j : nat) :
  length (candidate this j) = length (extent this).
Proof. unfold candidate. apply draw_length. Qed.

Lemma over_radius_returns (this : sampler) (j : nat) :
  gtb (effective_distance this j) (radius this) = true ->
  distToNearest this (candidate this j) = Ret (effective_distance this j).
Proof.
  unfold effective_distance.
  destruct (distToNearest this (candidate this j)); [reflexivity|discriminate].
Qed.

End Throws.

(** ** The try loop without early exit *)

Section Scan.

Import Poissimple.

Lemma gtb_not_over_new_best (di dm da : num) :
  gtb di dm = false -> gtb da dm = true -> gtb di da = false.
Proof.
  destruct di, dm, da; simpl; try discriminate; auto;
    repeat match goal with |- context [Rlt_dec ?u ?v] => destruct (Rlt_dec u v) end;
    intros; try discriminate; auto; lra.
Qed.

Lemma gtb_new_best_over_old (di dm da : num) :
  gtb di NegInf = true -> gtb di dm = false -> gtb da dm = true -> gtb da di = true.
Proof.
  destruct di, dm, da; simpl; try discriminate; auto;
    repeat match goal with |- context [Rlt_dec ?u ?v] => destruct (Rlt_dec u v) end;
    intros; try discriminate; auto; lra.
Qed.

Variable this : sampler.
Variable d : nat -> num.

(** After [a] tries the best so far is candidate [m]: nothing tried beats
    it, and it beats everything tried before it.  The remaining [rem] tries
    keep that shape. *)
Lemma try_loop_scan (rem : nat) :
  forall a m,
    m < a ->
    (forall i, i < a + rem ->
       distToNearest this (candidate this i) = Ret (d i) /\
       gtb (d i) (radius this) = false /\
       gtb (d i) NegInf = true) ->
    (forall i, i < a -> gtb (d i) (d m) = false) ->
    (forall i, i < m -> gtb (d m) (d i) = true) ->
    exists m',
      m' < a + rem /\
      try_loop rem (Some (candidate this m)) (d m) (after_tries this a) =
        (Ret (Some (candidate this m')), after_tries this (a + rem)) /\
      (forall i, i < a + rem -> gtb (d i) (d m') = false) /\
      (forall i, i < m' -> gtb (d m') (d i) = true).
Proof.
  induction rem as [|rem IH]; intros a m Hm Hd Hmax Hfirst.
  - exists m. rewrite Nat.add_0_r. repeat split; auto; lia.
  - rewrite try_loop_S. cbn zeta.
    set (now := after_tries this a).
    change (draw (rng now) (draws now) (extent now)) with (candidate this a).
    change (distToNearest now (candidate this a))
      with (distToNearest this (candidate this a)).
    destruct (Hd a) as [Hda [Hunder Hnum]]; [lia|].
    rewrite Hda. change (radius now) with (radius this). rewrite Hunder.
    replace (set_draws (draws now + length (extent now)) now)
      with (after_tries this (S a)).
    2:{ unfold now, after_tries. rewrite set_draws_set_draws.
        cbn [draws extent set_draws]. f_equal. simpl. lia. }
    clearbody now. clear now.
    destruct (gtb (d a) (d m)) eqn:Hbeat.
    + destruct (IH (S a) a) as [m' [Hm' [Hrun [Hmax' Hfirst']]]].
      * lia.
      * intros i Hi. apply Hd. lia.
      * intros i Hi. destruct (Nat.eq_dec i a) as [->|Hne].
        -- apply gtb_irrefl.
        -- eapply gtb_not_over_new_best; [apply Hmax; lia|exact Hbeat].
      * intros i Hi. eapply gtb_new_best_over_old; [apply Hd; lia|apply Hmax; lia|exact Hbeat].
      * exists m'. replace (a + S rem) with (S a + rem) by lia. auto.
    + destruct (IH (S a) m) as [m' [Hm' [Hrun [Hmax' Hfirst']]]].
      * lia.
      * intros i Hi. apply Hd. lia.
      * intros i Hi. destruct (Nat.eq_dec i a) as [->|Hne]; [exact Hbeat|apply Hmax; lia].
      * exact Hfirst.
      * exists m'. replace (a + S rem) with (S a + rem) by lia. auto.
Qed.

(** The whole loop, from [bestPoint = null] and [largestDist = -Infinity]. *)
Lemma try_loop_best (k : nat) :
  1 <= k ->
  (forall i, i < k ->
     distToNearest this (candidate this i) = Ret (d i) /\
     gtb (d i) (radius this) = false /\
     gtb (d i) NegInf = true) ->
  exists m,
    m < k /\
    try_loop k None NegInf this =
      (Ret (Some (candidate this m)), after_tries this k) /\
    (forall i, i < k -> gtb (d i) (d m) = false) /\
    (forall i, i < m -> gtb (d m) (d i) = true).
Proof.
  intros Hk Hd. destruct k as [|k]; [lia|].
  rewrite try_loop_S. cbn zeta. rewrite <- candidate_0.
  destruct (Hd 0) as [Hd0 [Hunder Hnum]]; [lia|].
  rewrite Hd0, Hunder, Hnum.
  destruct (try_loop_scan k 1 0) as [m [Hm [Hrun [Hmax Hfirst]]]].
  - lia.
  - intros i Hi. apply Hd. lia.
  - intros i Hi. replace i with 0 by lia. apply gtb_irrefl.
  - intros i Hi. lia.
  - exists m. split; [lia|]. split; [|split].
    + replace (set_draws (draws this + length (extent this)) this)
        with (after_tries this 1)
        by (unfold after_tries; f_equal; simpl; lia).
      exact Hrun.
    + intros i Hi. apply Hmax. lia.
    + exact Hfirst.
Qed.

End Scan.

(** ** Construction *)

Section Construction.

Import Poissimple.

Lemma or_default_positive (a : option nat) (b : nat) : 1 <= b -> 1 <= or_default a b.
Proof. intros Hb. destruct a as [[|k]|]; simpl; lia. Qed.

(** What the constructor leaves in [this] when it returns. *)
Lemma Poissimple_fields (options : options) (rng : nat -> num) (this : sampler) :
  Poissimple options rng = Some (Ret this) ->
  exists axes,
    init_extent (or_default (opt_dimensions options) 2) (opt_extent options) = Axes axes /\
    this =
      mkSampler (or_default (opt_n options) 10) (or_default (opt_dimensions options) 2)
        axes (or_default (opt_tries options) 30) rng
        (match opt_repulsiveBoundary options with Some b => b | None => false end)
        (fold_left (fun volume '(lower, upper) => mul volume (sub upper lower)) axes (Fin 1))
        (mul (div Math_PI (Fin 4))
           (Math_pow
              (div (fold_left (fun volume '(lower, upper) => mul volume (sub upper lower))
                      axes (Fin 1))
                   (of_nat (or_default (opt_n options) 10)))
              (div (Fin 1) (of_nat (or_default (opt_dimensions options) 2)))))
        [] 0.
Proof.
  unfold Poissimple.
  destruct (init_extent _ _) as [axes| |]; try discriminate.
  intros H. injection H as H. exists axes. split; [reflexivity|].
  symmetry. exact H.
Qed.

Lemma Poissimple_initial (options : options) (rng : nat -> num) (this : sampler) :
  Poissimple options rng = Some (Ret this) ->
  points this = [] /\ draws this = 0 /\ 1 <= n this /\ 1 <= dim this /\ 1 <= tries this.
Proof.
  intros H. destruct (Poissimple_fields _ _ _ H) as [axes [_ ->]]. simpl.
  repeat split; auto; apply or_default_positive; lia.
Qed.

Lemma volume_real_axes (rs : list (R * R)) (a : R) :
  fold_left (fun volume '(lower, upper) => mul volume (sub upper lower))
    (real_axes rs) (Fin a) = Fin (a * measure rs).
Proof.
  revert a. induction rs as [|[lo up] rs IH]; intros a; simpl.
  - f_equal. lra.
  - rewrite IH. f_equal. lra.
Qed.

Lemma measure_positive (rs : list (R * R)) : proper_axes rs -> (0 < measure rs)%R.
Proof.
  induction 1 as [|[lo up] rs Hb _ IH]; simpl in *; [lra|].
  apply Rmult_lt_0_compat; lra.
Qed.

Lemma div_Fin (x y : R) : y <> 0%R -> div (Fin x) (Fin y) = Fin (x / y).
Proof. intros Hy. simpl. destruct (Req_dec_T y 0); [contradiction|reflexivity]. Qed.

Lemma Math_pow_positive (x y : R) :
  (0 < x)%R -> y <> 0%R -> Math_pow (Fin x) (Fin y) = Fin (Rpower x y).
Proof.
  intros Hx Hy. simpl.
  destruct (Req_dec_T y 0); [contradiction|].
  destruct (Req_dec_T x 0); [lra|].
  destruct (Rlt_dec 0 x); [reflexivity|contradiction].
Qed.

Lemma INR_positive (k : nat) : 1 <= k -> (0 < INR k)%R.
Proof. intros Hk. apply lt_0_INR. lia. Qed.

(** The radius over a proper extent. *)
Lemma radius_real (this : sampler) (options : options) (rng : nat -> num)
    (rs : list (R * R)) :
  Poissimple options rng = Some (Ret this) ->
  extent this = real_axes rs ->
  proper_axes rs ->
  volume this = Fin (measure rs) /\
  radius this =
    Fin (PI / 4 * Rpower (measure rs / INR (n this)) (1 / INR (dim this))).
Proof.
  intros Hnew Hext Hrs.
  destruct (Poissimple_initial _ _ _ Hnew) as [_ [_ [Hn [Hd _]]]].
  destruct (Poissimple_fields _ _ _ Hnew) as [axes [_ Hthis]].
  assert (Haxes : axes = real_axes rs) by (rewrite Hthis in Hext; exact Hext).
  subst axes. rewrite volume_real_axes in Hthis.
  replace (1 * measure rs)%R with (measure rs) in Hthis by lra.
  pose proof (measure_positive rs Hrs) as HV.
  assert (Hnpos : (0 < INR (n this))%R) by (apply INR_positive; exact Hn).
  assert (Hdpos : (0 < INR (dim this))%R) by (apply INR_positive; exact Hd).
  rewrite Hthis at 1 2. cbn [volume radius]. split; [reflexivity|].
  rewrite Hthis in Hnpos, Hdpos. cbn [n dim] in Hnpos, Hdpos.
  rewrite Hthis. cbn [n dim]. unfold of_nat, Math_PI.
  rewrite !div_Fin by lra.
  rewrite Math_pow_positive.
  - reflexivity.
  - apply Rdiv_lt_0_compat; assumption.
  - apply Rgt_not_eq. apply Rdiv_lt_0_compat; lra.
Qed.

End Construction.

(** ** The worked run, evaluated *)

Section WorkedRun.

Import Poissimple.

Lemma run_start_constructed : Poissimple run_options run_rng = Some (Ret run_start).
Proof.
  unfold Poissimple, run_options. cbn -[Math_pow div mul sub Math_PI INR].
  assert (Hv : mul (Fin 1) (sub (Fin 1) (Fin 0)) = Fin 1) by (simpl; f_equal; lra).
  rewrite Hv.
  assert (Hr : mul (div Math_PI (Fin 4))
                 (Math_pow (div (Fin 1) (of_nat 3)) (div (Fin 1) (of_nat 1))) =
               Fin (PI / 12)).
  { unfold of_nat, Math_PI. rewrite !div_Fin by (simpl; lra).
    rewrite Math_pow_positive by (simpl; lra).
    cbn [mul]. f_equal. simpl INR. replace (1 / 1)%R with 1%R by lra.
    rewrite Rpower_1 by lra. lra. }
  rewrite Hr. reflexivity.
Qed.

Lemma PI_over_12_bounds : (1 / 4 < PI / 12 <= 1 / 3)%R.
Proof. pose proof PI_4. pose proof PI2_3_2. lra. Qed.

Lemma Math_hypot_single (x : R) : Math_hypot [Fin x] = Fin (Rabs x).
Proof.
  unfold Math_hypot. simpl. f_equal.
  replace (x * x + 0)%R with (Rsqr x) by (unfold Rsqr; lra).
  apply sqrt_Rsqr_abs.
Qed.

Lemma run_candidate (ps : list (option point)) (k j : nat) (u : R) :
  run_rng (k + j) = Fin u ->
  candidate (run_state ps k) j = [Fin u].
Proof.
  intros Hu. unfold candidate, run_state. cbn [rng draws extent length].
  rewrite Nat.mul_1_r. cbn [draw]. rewrite Hu. simpl. do 2 f_equal. lra.
Qed.

Lemma run_distance (q c : R) :
  distance 1 [Fin q] [Fin c] = Fin (Rabs (c - q)).
Proof. unfold distance. simpl. rewrite Math_hypot_single. reflexivity. Qed.

Lemma run_one_effective (j : nat) (u : R) :
  run_rng (1 + j) = Fin u ->
  distToNearest run_one (candidate run_one j) = Ret (Fin (Rabs (u - 1 / 4))).
Proof.
  intros Hu. unfold run_one. rewrite (run_candidate _ 1 j u Hu).
  unfold distToNearest, _distanceToExisting. cbn [points run_state fold_outcome].
  rewrite _distance_Some. cbn [dim run_state obind repulsiveBoundary].
  rewrite run_distance, Math_min_pair. reflexivity.
Qed.

Lemma run_two_effective (j : nat) (u : R) :
  run_rng (3 + j) = Fin u ->
  distToNearest run_two (candidate run_two j) =
    Ret (min2 (Fin (Rabs (u - 1 / 4))) (Fin (Rabs (u - 7 / 8)))).
Proof.
  intros Hu. unfold run_two. rewrite (run_candidate _ 3 j u Hu).
  unfold distToNearest, _distanceToExisting. cbn [points run_state fold_outcome].
  rewrite !_distance_Some. cbn [dim run_state obind repulsiveBoundary].
  rewrite !run_distance, !Math_min_pair, min2_PosInf. reflexivity.
Qed.

Lemma run_one_distances :
  effective_distance run_one 0 = Fin (1 / 4) /\
  effective_distance run_one 1 = Fin (5 / 8).
Proof.
  unfold effective_distance.
  rewrite (run_one_effective 0 (1 / 2)), (run_one_effective 1 (7 / 8)) by reflexivity.
  split; f_equal.
  - replace (1 / 2 - 1 / 4)%R with (1 / 4)%R by lra. apply Rabs_pos_eq. lra.
  - replace (7 / 8 - 1 / 4)%R with (5 / 8)%R by lra. apply Rabs_pos_eq. lra.
Qed.

Lemma run_two_distances :
  effective_distance run_two 0 = Fin (1 / 4) /\
  effective_distance run_two 1 = Fin (1 / 4).
Proof.
  unfold effective_distance.
  rewrite (run_two_effective 0 (1 / 2)), (run_two_effective 1 (5 / 8)) by reflexivity.
  replace (1 / 2 - 1 / 4)%R with (1 / 4)%R by lra.
  replace (1 / 2 - 7 / 8)%R with (- (3 / 8))%R by lra.
  replace (5 / 8 - 1 / 4)%R with (3 / 8)%R by lra.
  replace (5 / 8 - 7 / 8)%R with (- (1 / 4))%R by lra.
  rewrite !Rabs_Ropp, !Rabs_pos_eq by lra.
  split; simpl.
  - destruct (Rlt_dec (3 / 8) (1 / 4)); [lra|reflexivity].
  - destruct (Rlt_dec (1 / 4) (3 / 8)); [reflexivity|lra].
Qed.

Lemma run_state_well_formed (ps : list (option point)) (k : nat) :
  forallb (proper_point 1) ps = true -> well_formed (run_state ps k).
Proof.
  intros Hps. split; auto.
  intros i. unfold run_state. cbn [rng]. unfold run_rng.
  do 5 (destruct i as [|i]; [reflexivity|]). reflexivity.
Qed.

End WorkedRun.

(** ** The claims about [next] and [fill] *)

Section Generation.

Import Poissimple.

(** C1.  For every configuration and every sequence of [next()] and [fill()]
    calls on the sampler built from it, the accepted-points collection never
    holds more than [n] points (and [n] itself never changes); and whenever
    the collection holds exactly [n] points, [next()] returns [null] and
    leaves [this] as it is.  Along the way every [fill()] ends, and when it
    returns the collection it returns holds exactly [n] points. *)
Theorem accepted_points_never_exceed_n
    (options : options) (rng : nat -> num) (this : sampler) (calls : list call) :
  Poissimple options rng = Some (Ret this) ->
  length (getPoints (after_calls calls this)) <= n this /\
  n (after_calls calls this) = n this /\
  (forall s : sampler, length (getPoints s) = n s -> next s = (Ret None, s)) /\
  (exists r this',
     fill (after_calls calls this) = Some (r, this') /\
     (forall ps, r = Ret ps -> ps = getPoints this' /\ length ps = n this)).
Proof.
  intros Hnew. destruct (Poissimple_initial _ _ _ Hnew) as [Hps _].
  assert (H0 : length (points this) <= n this) by (rewrite Hps; simpl; lia).
  destruct (after_calls_invariant calls this H0) as [Hc Hle].
  unfold getPoints. rewrite <- (same_n _ _ Hc) at 1.
  split; [exact Hle|]. split; [apply Hc|].
  split; [intros s Hs; apply next_full; exact Hs|].
  destruct (fill_total _ Hle) as [r [this' [Hfill [Hc' [_ Hret]]]]].
  exists r, this'. split; [exact Hfill|].
  intros ps Hr. destruct (Hret ps Hr) as [Heq Hlen].
  split; [exact Heq|]. rewrite Hlen, (same_n _ _ Hc'). apply Hc.
Qed.

Lemma accepted_points_never_exceed_n_run :
  length (getPoints (after_calls [CallNext; CallFill; CallNext] run_start)) <= n run_start /\
  n (after_calls [CallNext; CallFill; CallNext] run_start) = n run_start /\
  (forall s : sampler, length (getPoints s) = n s -> next s = (Ret None, s)) /\
  (exists r this',
     fill (after_calls [CallNext; CallFill; CallNext] run_start) = Some (r, this') /\
     (forall ps, r = Ret ps -> ps = getPoints this' /\ length ps = n run_start)).
Proof.
  exact (accepted_points_never_exceed_n run_options run_rng run_start
           [CallNext; CallFill; CallNext] run_start_constructed).
Defined.

(** C2.  In a step of [next()] with fewer than [n] accepted points, let
    candidate [j] be a tried candidate whose effective distance is strictly
    over the radius (the candidates before it were not over it, or the loop
    would not have reached it).  Then the loop stops there: no further value
    is drawn, and the point appended and returned is candidate [j] itself. *)
Theorem next_stops_at_candidate_over_radius (this : sampler) (j : nat) :
  length (points this) < n this ->
  j < tries this ->
  (forall i, i < j -> gtb (effective_distance this i) (radius this) = false) ->
  gtb (effective_distance this j) (radius this) = true ->
  next this =
    (Ret (Some (candidate this j)), accepted this j (Some (candidate this j))).
Proof.
  intros Hlt Hj Hbefore Hover.
  rewrite next_not_full by lia.
  pose proof (over_radius_returns this j Hover) as Hdj.
  rewrite (try_loop_exit j (tries this) this None NegInf (effective_distance this j)).
  - reflexivity.
  - left; reflexivity.
  - exact Hj.
  - intros i Hi.
    destruct (distToNearest_returns this (candidate this j) (candidate this i))
      as [d Hd]; [rewrite candidate_length; lia|eauto|].
    exists d. split; [exact Hd|].
    specialize (Hbefore i Hi). unfold effective_distance in Hbefore.
    rewrite Hd in Hbefore. exact Hbefore.
  - exact Hdj.
  - exact Hover.
Qed.

Lemma next_stops_at_candidate_over_radius_run :
  next run_one =
    (Ret (Some (candidate run_one 1)), accepted run_one 1 (Some (candidate run_one 1))).
Proof.
  apply (next_stops_at_candidate_over_radius run_one 1).
  - simpl. lia.
  - simpl. lia.
  - intros i Hi. replace i with 0 by lia.
    rewrite (proj1 run_one_distances). apply gtb_Fin_false.
    pose proof PI_over_12_bounds. simpl. lra.
  - rewrite (proj2 run_one_distances). apply gtb_Fin.
    pose proof PI_over_12_bounds. simpl. lra.
Defined.

(** C3.  In a step of [next()] on a sampler of the data model, with fewer
    than [n] accepted points and a positive try budget, if no candidate's
    effective distance is strictly over the radius, then [next()] tries
    exactly [tries] candidates and appends and returns candidate [m], where
    no tried candidate has a larger effective distance than [m] and [m] is
    strictly better than every candidate before it (the first of the best
    wins).  So the step produces a point. *)
Theorem next_falls_back_to_first_best (this : sampler) :
  well_formed this ->
  length (points this) < n this ->
  1 <= tries this ->
  (forall j, j < tries this ->
     gtb (effective_distance this j) (radius this) = false) ->
  exists m,
    m < tries this /\
    next this =
      (Ret (Some (candidate this m)),
       accepted this (tries this - 1) (Some (candidate this m))) /\
    (forall j, j < tries this ->
       gtb (effective_distance this j) (effective_distance this m) = false) /\
    (forall j, j < m ->
       gtb (effective_distance this m) (effective_distance this j) = true).
Proof.
  intros Hwf Hlt Htries Hunder.
  destruct (try_loop_best this (effective_distance this) (tries this) Htries)
    as [m [Hm [Hrun [Hmax Hfirst]]]].
  - intros i Hi. destruct (effective_distance_Ret this i Hwf) as [Hd Hdist].
    split; [exact Hd|]. split; [apply Hunder; exact Hi|].
    apply is_distance_numeric. exact Hdist.
  - exists m. split; [exact Hm|]. split; [|split; assumption].
    rewrite next_not_full by lia. rewrite Hrun.
    unfold accepted. replace (S (tries this - 1)) with (tries this) by lia.
    reflexivity.
Qed.

Lemma next_falls_back_to_first_best_run :
  exists m,
    m < tries run_two /\
    next run_two =
      (Ret (Some (candidate run_two m)),
       accepted run_two (tries run_two - 1) (Some (candidate run_two m))) /\
    (forall j, j < tries run_two ->
       gtb (effective_distance run_two j) (effective_distance run_two m) = false) /\
    (forall j, j < m ->
       gtb (effective_distance run_two m) (effective_distance run_two j) = true).
Proof.
  apply (next_falls_back_to_first_best run_two).
  - apply run_state_well_formed. reflexivity.
  - simpl. lia.
  - simpl. lia.
  - intros j Hj. simpl in Hj.
    assert (Hd : effective_distance run_two j = Fin (1 / 4)).
    { destruct j as [|[|j]]; [apply run_two_distances|apply run_two_distances|lia]. }
    rewrite Hd. apply gtb_Fin_false. pose proof PI_over_12_bounds. simpl. lra.
Defined.

End Generation.

(** ** The radius *)

Section Radius.

Import Poissimple.

(** C4.  At construction the radius is [(PI/4) * (V/n)^(1/d)], with [V] the
    product over the axes of [upper - lower], [n] the target count and [d]
    the dimensionality (each with its default when the option is absent);
    and no later call of [next()] or [fill()] changes it. *)
Theorem radius_is_the_heuristic
    (options : options) (rng : nat -> num) (this : sampler)
    (rs : list (R * R)) (calls : list call) :
  Poissimple options rng = Some (Ret this) ->
  extent this = real_axes rs ->
  proper_axes rs ->
  n this = or_default (opt_n options) 10 /\
  dim this = or_default (opt_dimensions options) 2 /\
  radius this =
    Fin (PI / 4 * Rpower (measure rs / INR (n this)) (1 / INR (dim this))) /\
  radius (after_calls calls this) = radius this.
Proof.
  intros Hnew Hext Hrs.
  destruct (radius_real this options rng rs Hnew Hext Hrs) as [_ Hr].
  destruct (Poissimple_initial _ _ _ Hnew) as [Hps [_ [Hn _]]].
  destruct (Poissimple_fields _ _ _ Hnew) as [axes [_ Hthis]].
  split; [rewrite Hthis; reflexivity|]. split; [rewrite Hthis; reflexivity|].
  split; [exact Hr|].
  assert (H0 : length (points this) <= n this) by (rewrite Hps; simpl; lia).
  apply (after_calls_invariant calls this H0).
Qed.

Lemma radius_is_the_heuristic_run :
  n run_start = 3 /\
  dim run_start = 1 /\
  radius run_start = Fin (PI / 4 * Rpower (measure [(0, 1)%R] / INR 3) (1 / INR 1)) /\
  radius (after_calls [CallNext; CallFill] run_start) = radius run_start.
Proof.
  apply (radius_is_the_heuristic run_options run_rng run_start [(0, 1)%R]
           [CallNext; CallFill]).
  - exact run_start_constructed.
  - reflexivity.
  - constructor; [simpl; lra|constructor].
Defined.

End Radius.

(** ** Distance and the [periodic] option *)

Section Periodic.

Import Poissimple.

(** C5, the code at the failing input.  Whatever [periodic] is in the
    options, the constructor returns the same sampler, and in the extent
    [[0, 1]] its [_distance] between 0.1 and 0.9 is 0.8: the difference is
    never wrapped. *)
Theorem distance_ignores_periodic (periodic : option periodic_arg) (rng : nat -> num) :
  Poissimple
    (mkOptions (Some 20) (Some 1) (Some (Flat (Fin 0) (Fin 1))) periodic None None) rng =
  Poissimple
    (mkOptions (Some 20) (Some 1) (Some (Flat (Fin 0) (Fin 1))) None None None) rng /\
  exists this,
    Poissimple
      (mkOptions (Some 20) (Some 1) (Some (Flat (Fin 0) (Fin 1))) periodic None None) rng =
    Some (Ret this) /\
    _distance this (Some [Fin (1 / 10)]) [Fin (9 / 10)] = Ret (Fin (8 / 10)).
Proof.
  split; [reflexivity|].
  eexists. split; [reflexivity|].
  rewrite _distance_Some. cbn [dim set_points set_radius set_volume].
  rewrite run_distance. do 2 f_equal.
  replace (9 / 10 - 1 / 10)%R with (8 / 10)%R by lra. apply Rabs_pos_eq. lra.
Qed.

End Periodic.

(** ** Manual point injection *)

Section Injection.

Import Poissimple.

(** C6.  [addPoint] rejects a point whose coordinate count differs from the
    dimensionality with the shape-mismatch error and leaves [this] as it is;
    a point of the right shape is appended, whatever its coordinates and
    whatever the points already there: the collection is one longer, the
    points before it are the same, nothing else of [this] changes. *)
Theorem addPoint_checks_shape_only (p : point) (this : sampler) :
  (length p <> dim this -> addPoint p this = (ShapeMismatchError, this)) /\
  (length p = dim this ->
     fst (addPoint p this) = Added /\
     getPoints (snd (addPoint p this)) = getPoints this ++ [Some p] /\
     length (getPoints (snd (addPoint p this))) = S (length (getPoints this)) /\
     (forall i, i < length (getPoints this) ->
        nth_error (getPoints (snd (addPoint p this))) i = nth_error (getPoints this) i) /\
     same_configuration this (snd (addPoint p this)) /\
     draws (snd (addPoint p this)) = draws this).
Proof.
  unfold addPoint, getPoints. split.
  - intros H. apply Nat.eqb_neq in H. rewrite H. reflexivity.
  - intros H. rewrite H, Nat.eqb_refl. cbn [fst snd points set_points].
    split; [reflexivity|]. split; [reflexivity|].
    split; [rewrite length_app; simpl; lia|].
    split; [intros i Hi; apply nth_error_app1; exact Hi|].
    split; [split; reflexivity|reflexivity].
Qed.

Lemma addPoint_checks_shape_only_run :
  (length [Fin 5] <> dim run_one -> addPoint [Fin 5] run_one = (ShapeMismatchError, run_one)) /\
  (length [Fin 5] = dim run_one ->
     fst (addPoint [Fin 5] run_one) = Added /\
     getPoints (snd (addPoint [Fin 5] run_one)) = getPoints run_one ++ [Some [Fin 5]] /\
     length (getPoints (snd (addPoint [Fin 5] run_one))) = S (length (getPoints run_one)) /\
     (forall i, i < length (getPoints run_one) ->
        nth_error (getPoints (snd (addPoint [Fin 5] run_one))) i =
        nth_error (getPoints run_one) i) /\
     same_configuration run_one (snd (addPoint [Fin 5] run_one)) /\
     draws (snd (addPoint [Fin 5] run_one)) = draws run_one).
Proof. exact (addPoint_checks_shape_only [Fin 5] run_one). Defined.

(** In the worked run: a point outside the extent [[0, 1]] goes in, a copy
    of the point already there goes in, a two-coordinate point does not. *)
Example addPoint_run :
  addPoint [Fin 5] run_one = (Added, run_state [Some [Fin (1 / 4)]; Some [Fin 5]] 1) /\
  addPoint [Fin (1 / 4)] run_one =
    (Added, run_state [Some [Fin (1 / 4)]; Some [Fin (1 / 4)]] 1) /\
  addPoint [Fin 0; Fin 0] run_one = (ShapeMismatchError, run_one).
Proof. repeat split. Qed.

End Injection.

(** ** Boundary repulsion *)

Section Boundary.

Import Poissimple.

Lemma skipn_nth_error {A : Type} (l : list A) (i : nat) (a : A) :
  nth_error l i = Some a -> skipn i l = a :: skipn (S i) l.
Proof.
  revert i. induction l as [|x l IH]; intros [|i] H; simpl in *; try discriminate.
  - injection H as ->. reflexivity.
  - apply IH. exact H.
Qed.

Lemma boundary_forEach_fold (axes : list bounds) (cs : list num) :
  forall i acc, i + length cs <= length axes ->
  boundary_forEach axes cs i acc =
    Ret (fold_left min2
           (map (fun bx => nearer_edge_distance (fst bx) (snd bx))
                (combine (skipn i axes) cs))
           acc).
Proof.
  induction cs as [|x cs IH]; intros i acc Hi; simpl in *.
  - rewrite combine_nil. reflexivity.
  - destruct (nth_error axes i) as [[lower upper]|] eqn:Hnth.
    + rewrite (skipn_nth_error _ _ _ Hnth). cbn [combine map fold_left fst snd].
      rewrite IH by lia. f_equal. f_equal.
      rewrite Math_min_triple. unfold nearer_edge_distance.
      rewrite Math_min_pair. reflexivity.
    + apply nth_error_None in Hnth. lia.
Qed.

Lemma _distanceToBoundary_is_boundary_distance (this : sampler) (c : point) :
  length c <= length (extent this) ->
  _distanceToBoundary this c = Ret (boundary_distance (extent this) c).
Proof.
  intros H. unfold _distanceToBoundary. rewrite boundary_forEach_fold by (simpl; lia).
  reflexivity.
Qed.

Lemma min2_Fin (x y : R) : min2 (Fin x) (Fin y) = Fin (Rmin x y).
Proof.
  simpl. unfold Rmin. destruct (Rlt_dec y x), (Rle_dec x y); try reflexivity; lra.
Qed.

(** C7.  For a candidate that [next()] draws, the effective acceptance
    distance is the nearest-neighbour distance when [repulsiveBoundary] is
    off, and the minimum of it and twice the boundary distance when it is
    on; the boundary distance is the minimum over all axes of the distance to
    the nearer edge of the axis, which for finite numbers is
    [min(|x - lower|, |upper - x|)]. *)
Theorem effective_distance_is_acceptance_distance (this : sampler) (k : nat) :
  distToNearest this (draw (rng this) k (extent this)) =
    obind (_distanceToExisting this (draw (rng this) k (extent this)))
      (fun nearest =>
         Ret (acceptance_distance (repulsiveBoundary this) nearest
                (extent this) (draw (rng this) k (extent this)))) /\
  _distanceToBoundary this (draw (rng this) k (extent this)) =
    Ret (boundary_distance (extent this) (draw (rng this) k (extent this))) /\
  (forall lower upper x : R,
     nearer_edge_distance (Fin lower, Fin upper) (Fin x) =
       Fin (Rmin (Rabs (x - lower)) (Rabs (upper - x)))) /\
  (forall nearest boundary : R,
     Math_min [Fin nearest; mul (Fin 2) (Fin boundary)] =
       Fin (Rmin nearest (2 * boundary))).
Proof.
  assert (Hb : _distanceToBoundary this (draw (rng this) k (extent this)) =
               Ret (boundary_distance (extent this) (draw (rng this) k (extent this)))).
  { apply _distanceToBoundary_is_boundary_distance. rewrite draw_length. lia. }
  split; [|split; [exact Hb|split]].
  - unfold distToNearest, acceptance_distance.
    destruct (_distanceToExisting this _) as [nearest|e]; [|reflexivity].
    cbn [obind]. destruct (repulsiveBoundary this); [|reflexivity].
    rewrite Hb. reflexivity.
  - intros lower upper x. unfold nearer_edge_distance.
    rewrite Math_min_pair. cbn [fst snd sub neg add Math_abs]. apply min2_Fin.
  - intros nearest boundary. rewrite Math_min_pair. cbn [mul]. apply min2_Fin.
Qed.

End Boundary.

(** ** The first step *)

Section FirstStep.

Import Poissimple.

(** A step produces a point whenever every candidate's distance is a
    number: the first try already records a best point. *)
Lemma try_loop_produces (k : nat) :
  forall (this : sampler) (best : option point) (largest : num),
    (forall k0, exists d,
        distToNearest this (draw (rng this) k0 (extent this)) = Ret d /\
        gtb d NegInf = true) ->
    (best = None -> largest = NegInf /\ 1 <= k) ->
    exists p m, try_loop k best largest this = (Ret (Some p), set_draws m this).
Proof.
  induction k as [|k IH]; intros this best largest Hd Hbest.
  - destruct best as [p|]; [|destruct Hbest; [reflexivity|lia]].
    exists p, (draws this). simpl. unfold ret. rewrite set_draws_same. reflexivity.
  - rewrite try_loop_S. cbn zeta.
    destruct (Hd (draws this)) as [d [Hdd Hnum]]. rewrite Hdd.
    set (c := draw (rng this) (draws this) (extent this)).
    assert (Hsome : exists p, (if gtb d largest then Some c else best) = Some p).
    { destruct best as [p|].
      - destruct (gtb d largest); eauto.
      - destruct Hbest as [-> _]; [reflexivity|]. rewrite Hnum. eauto. }
    destruct Hsome as [p Hp]. rewrite Hp.
    destruct (gtb d (radius this)).
    + eauto.
    + destruct (IH (set_draws (draws this + length (extent this)) this) (Some p)
                  (if gtb d largest then d else largest)) as [p' [m Hrun]].
      * exact Hd.
      * discriminate.
      * exists p', m. rewrite Hrun. reflexivity.
Qed.

Lemma next_produces (this : sampler) :
  length (points this) <> n this ->
  1 <= tries this ->
  (forall k0, exists d,
      distToNearest this (draw (rng this) k0 (extent this)) = Ret d /\
      gtb d NegInf = true) ->
  exists p m,
    next this = (Ret (Some p), set_points (points this ++ [Some p]) (set_draws m this)).
Proof.
  intros Hn Ht Hd. rewrite (next_not_full _ Hn).
  destruct (try_loop_produces (tries this) this None NegInf Hd) as [p [m Hrun]].
  - intros _. split; [reflexivity|exact Ht].
  - exists p, m. rewrite Hrun. reflexivity.
Qed.

Lemma real_axes_finite (rs : list (R * R)) : forallb finite_axis (real_axes rs) = true.
Proof. induction rs as [|[lo up] rs IH]; simpl; auto. Qed.

Lemma distToNearest_first (this : sampler) (c : point) :
  points this = [] ->
  forallb finite_axis (extent this) = true ->
  forallb is_fin c = true ->
  length c <= length (extent this) ->
  exists d, distToNearest this c = Ret d /\ is_distance d.
Proof.
  intros Hps Hext Hc Hlen. unfold distToNearest.
  rewrite (_distanceToExisting_empty _ _ Hps). cbn [obind].
  destruct (repulsiveBoundary this).
  - unfold _distanceToBoundary.
    destruct (boundary_forEach_distance (extent this) c Hext Hc 0 PosInf)
      as [b [Hb Hbd]]; [simpl; lia|left; reflexivity|].
    rewrite Hb. cbn [obind]. rewrite Math_min_pair, min2_PosInf.
    eexists. split; [reflexivity|]. apply double_distance. exact Hbd.
  - eexists. split; [reflexivity|]. left. reflexivity.
Qed.

(** With no accepted point and no boundary repulsion the first candidate
    passes any radius that is a number. *)
Lemma first_step_accepts (this : sampler) :
  points this = [] ->
  repulsiveBoundary this = false ->
  1 <= n this ->
  1 <= tries this ->
  gtb PosInf (radius this) = true ->
  next this =
    (Ret (Some (candidate this 0)), accepted this 0 (Some (candidate this 0))).
Proof.
  intros Hps Hrep Hn Ht Hr.
  rewrite next_not_full by (rewrite Hps; simpl; lia).
  assert (Hd : distToNearest this (candidate this 0) = Ret PosInf).
  { unfold distToNearest. rewrite (_distanceToExisting_empty _ _ Hps), Hrep. reflexivity. }
  rewrite (try_loop_exit 0 (tries this) this None NegInf PosInf);
    auto; try lia.
Qed.

Lemma unit_draw (rng : nat -> num) (k : nat) (u : R) :
  rng k = Fin u -> draw rng k [(Fin 0, Fin 1)] = [Fin u].
Proof. intros Hu. cbn [draw]. rewrite Hu. simpl. do 2 f_equal. lra. Qed.

Lemma nearer_edge_distance_Fin (lower upper x : R) :
  nearer_edge_distance (Fin lower, Fin upper) (Fin x) =
    Fin (Rmin (Rabs (x - lower)) (Rabs (upper - x))).
Proof.
  unfold nearer_edge_distance.
  rewrite Math_min_pair. cbn [fst snd sub neg add Math_abs]. apply min2_Fin.
Qed.

Lemma edge_start_constructed : Poissimple edge_options edge_rng = Some (Ret edge_start).
Proof.
  unfold Poissimple, edge_options. cbn -[Math_pow div mul sub Math_PI INR].
  assert (Hv : mul (Fin 1) (sub (Fin 1) (Fin 0)) = Fin 1) by (simpl; f_equal; lra).
  rewrite Hv.
  assert (Hr : mul (div Math_PI (Fin 4))
                 (Math_pow (div (Fin 1) (of_nat 1)) (div (Fin 1) (of_nat 1))) =
               Fin (PI / 4)).
  { unfold of_nat, Math_PI. rewrite !div_Fin by (simpl; lra).
    rewrite Math_pow_positive by (simpl; lra).
    cbn [mul]. f_equal. simpl INR. replace (1 / 1)%R with 1%R by lra.
    rewrite Rpower_1 by lra. lra. }
  rewrite Hr. reflexivity.
Qed.

(** Near the lower edge of [[0, 1]] the effective distance of the first
    candidate is twice its coordinate. *)
Lemma edge_effective (k : nat) (u : R) :
  (0 <= u <= 1 / 2)%R ->
  distToNearest (set_draws k edge_start) [Fin u] = Ret (Fin (2 * u)).
Proof.
  intros Hu. unfold distToNearest.
  rewrite _distanceToExisting_empty by reflexivity.
  cbn [obind repulsiveBoundary set_draws edge_start].
  rewrite _distanceToBoundary_is_boundary_distance by (simpl; lia).
  cbn [obind]. rewrite Math_min_pair, min2_PosInf.
  unfold boundary_distance. cbn [extent set_draws edge_start combine map fst snd].
  unfold Math_min. cbn [fold_left]. rewrite min2_PosInf, nearer_edge_distance_Fin.
  cbn [mul]. do 2 f_equal.
  rewrite !Rabs_pos_eq by lra. rewrite Rmin_left by lra. lra.
Qed.

End FirstStep.

Section FirstStepClaims.

Import Poissimple.

Lemma edge_first_step :
  next edge_start =
    (Ret (Some [Fin (1 / 2)]),
     set_points [Some [Fin (1 / 2)]] (set_draws 2 edge_start)).
Proof.
  rewrite next_not_full by (simpl; lia).
  change (tries edge_start) with 2.
  rewrite try_loop_S. cbn zeta.
  change (draw (rng edge_start) (draws edge_start) (extent edge_start))
    with (draw edge_rng 0 [(Fin 0, Fin 1)]).
  rewrite (unit_draw edge_rng 0 0) by reflexivity.
  change edge_start with (set_draws 0 edge_start) at 1.
  rewrite edge_effective by lra.
  replace (gtb (Fin (2 * 0)) NegInf) with true by reflexivity.
  replace (gtb (Fin (2 * 0)) (radius edge_start)) with false.
  2:{ symmetry. apply gtb_Fin_false. pose proof PI_RGT_0. simpl. lra. }
  rewrite try_loop_S. cbn zeta.
  change (draw _ _ _) with (draw edge_rng 1 [(Fin 0, Fin 1)]).
  rewrite (unit_draw edge_rng 1 (1 / 2)) by reflexivity.
  rewrite edge_effective by lra.
  replace (gtb (Fin (2 * (1 / 2))) (Fin (2 * 0))) with true.
  2:{ symmetry. apply gtb_Fin. lra. }
  destruct (gtb (Fin (2 * (1 / 2))) _); reflexivity.
Qed.

(** C8, the claim refuted: with [repulsiveBoundary] on, the first candidate of
    the first step (0, on the edge of [[0, 1]]) has effective distance 0 and
    is not the point accepted; the second candidate, 1/2, is. *)
Lemma first_candidate_may_lose_under_repulsion :
  Poissimple edge_options edge_rng = Some (Ret edge_start) /\
  getPoints edge_start = [] /\
  candidate edge_start 0 = [Fin 0] /\
  fst (next edge_start) = Ret (Some [Fin (1 / 2)]) /\
  fst (next edge_start) <> Ret (Some (candidate edge_start 0)) /\
  draws (snd (next edge_start)) = 2.
Proof.
  split; [exact edge_start_constructed|]. split; [reflexivity|].
  assert (Hc : candidate edge_start 0 = [Fin 0]).
  { unfold candidate. apply unit_draw. reflexivity. }
  split; [exact Hc|]. rewrite edge_first_step, Hc. cbn [fst snd].
  split; [reflexivity|]. split; [|reflexivity].
  intros H. injection H as H. lra.
Qed.

(** C8, amended.  Against an empty collection the nearest-neighbour distance
    is [+Infinity].  On the first [next()] of a sampler built over a proper
    finite extent: with [repulsiveBoundary] off the first candidate drawn is
    accepted on try 1, whatever the radius; with [repulsiveBoundary] on its
    effective distance is twice its boundary distance, which still has to
    pass the radius.  Either way, with [n = 1] and a random source of finite
    numbers, [fill()] returns exactly one point. *)
Theorem first_step_on_empty_collection
    (options : options) (rng : nat -> num) (this : sampler) (rs : list (R * R)) :
  Poissimple options rng = Some (Ret this) ->
  extent this = real_axes rs ->
  proper_axes rs ->
  (forall k, is_fin (rng k) = true) ->
  (forall c, _distanceToExisting this c = Ret PosInf) /\
  (repulsiveBoundary this = false ->
     next this =
       (Ret (Some (candidate this 0)), accepted this 0 (Some (candidate this 0)))) /\
  (repulsiveBoundary this = true ->
     distToNearest this (candidate this 0) =
       Ret (mul (Fin 2) (boundary_distance (extent this) (candidate this 0)))) /\
  (opt_n options = Some 1 ->
     exists p this',
       fill this = Some (Ret [Some p], this') /\ getPoints this' = [Some p]).
Proof.
  intros Hnew Hext Hrs Hrng.
  destruct (Poissimple_initial _ _ _ Hnew) as [Hps [Hdraws [Hn [Hd Ht]]]].
  destruct (radius_real this options rng rs Hnew Hext Hrs) as [_ Hr].
  assert (Hrng' : rng = Poissimple.rng this).
  { destruct (Poissimple_fields _ _ _ Hnew) as [axes [_ ->]]. reflexivity. }
  split; [intros c; apply _distanceToExisting_empty; exact Hps|].
  split; [|split].
  - intros Hrep. apply first_step_accepts; auto. rewrite Hr. reflexivity.
  - intros Hrep. unfold distToNearest.
    rewrite (_distanceToExisting_empty _ _ Hps), Hrep. cbn [obind].
    rewrite _distanceToBoundary_is_boundary_distance
      by (rewrite candidate_length; lia).
    cbn [obind]. rewrite Math_min_pair, min2_PosInf. reflexivity.
  - intros Hone.
    assert (Hn1 : n this = 1).
    { destruct (Poissimple_fields _ _ _ Hnew) as [axes [_ ->]]. cbn [n].
      rewrite Hone. reflexivity. }
    destruct (next_produces this) as [p [m Hnext]].
    + rewrite Hps, Hn1. simpl. lia.
    + exact Ht.
    + intros k0.
      destruct (distToNearest_first this (draw (Poissimple.rng this) k0 (extent this)))
        as [d [Hdd Hdist]]; auto.
      * rewrite Hext. apply real_axes_finite.
      * apply draw_finite; [rewrite <- Hrng'; exact Hrng|].
        rewrite Hext. apply real_axes_finite.
      * rewrite draw_length. lia.
      * exists d. split; [exact Hdd|]. apply is_distance_numeric. exact Hdist.
    + exists p, (set_points (points this ++ [Some p]) (set_draws m this)).
      unfold fill, getPoints. rewrite Hps, Hn1. cbn [length Nat.sub fill_loop].
      rewrite Hps, Hn1. cbn [length Nat.ltb Nat.leb]. rewrite Hnext.
      cbn [points set_points set_draws n app length]. rewrite Hps, Hn1.
      cbn [app length Nat.ltb Nat.leb]. split; reflexivity.
Qed.

Lemma first_step_on_empty_collection_run :
  ((forall c, _distanceToExisting run_start c = Ret PosInf) /\
   (repulsiveBoundary run_start = false ->
      next run_start =
        (Ret (Some (candidate run_start 0)),
         accepted run_start 0 (Some (candidate run_start 0)))) /\
   (repulsiveBoundary run_start = true ->
      distToNearest run_start (candidate run_start 0) =
        Ret (mul (Fin 2) (boundary_distance (extent run_start) (candidate run_start 0)))) /\
   (opt_n run_options = Some 1 ->
      exists p this',
        fill run_start = Some (Ret [Some p], this') /\ getPoints this' = [Some p])) /\
  ((forall c, _distanceToExisting edge_start c = Ret PosInf) /\
   (repulsiveBoundary edge_start = false ->
      next edge_start =
        (Ret (Some (candidate edge_start 0)),
         accepted edge_start 0 (Some (candidate edge_start 0)))) /\
   (repulsiveBoundary edge_start = true ->
      distToNearest edge_start (candidate edge_start 0) =
        Ret (mul (Fin 2) (boundary_distance (extent edge_start) (candidate edge_start 0)))) /\
   (opt_n edge_options = Some 1 ->
      exists p this',
        fill edge_start = Some (Ret [Some p], this') /\ getPoints this' = [Some p])).
Proof.
  split.
  - apply (first_step_on_empty_collection run_options run_rng run_start [(0, 1)%R]).
    + exact run_start_constructed.
    + reflexivity.
    + constructor; [simpl; lra|constructor].
    + intros k. unfold run_rng. do 5 (destruct k as [|k]; [reflexivity|]). reflexivity.
  - apply (first_step_on_empty_collection edge_options edge_rng edge_start [(0, 1)%R]).
    + exact edge_start_constructed.
    + reflexivity.
    + constructor; [simpl; lra|constructor].
    + intros k. destruct k; reflexivity.
Defined.

End FirstStepClaims.

(** ** Generated points *)

Section Generated.

Import Poissimple.

(** What the loop returns is the best point it was given or a point it
    drew. *)
Lemma try_loop_result (k : nat) :
  forall (this : sampler) (best : option point) (largest : num)
         (r : option point) (this' : sampler),
    try_loop k best largest this = (Ret r, this') ->
    r = best \/ exists k0, r = Some (draw (rng this) k0 (extent this)).
Proof.
  induction k as [|k IH]; intros this best largest r this' H.
  - simpl in H. injection H as <- _. left. reflexivity.
  - rewrite try_loop_S in H. cbn zeta in H.
    destruct (distToNearest this _) as [d|e]; [|discriminate].
    destruct (gtb d (radius this)).
    + injection H as <- _. destruct (gtb d largest); [right; eauto|left; reflexivity].
    + apply IH in H. destruct H as [->|[k0 ->]].
      * destruct (gtb d largest); [right; eauto|left; reflexivity].
      * right. exists k0. reflexivity.
Qed.

Lemma next_result (this this' : sampler) (p : point) :
  next this = (Ret (Some p), this') ->
  exists k0, p = draw (rng this) k0 (extent this).
Proof.
  intros H. destruct (Nat.eq_dec (length (points this)) (n this)) as [Hn|Hn].
  - rewrite (next_full _ Hn) in H. discriminate.
  - rewrite (next_not_full _ Hn) in H.
    destruct (try_loop (tries this) None NegInf this) as [[r|e] s] eqn:Hrun;
      [|discriminate].
    injection H as -> _.
    destruct (try_loop_result _ _ _ _ _ _ Hrun) as [Hnone|[k0 Hk0]]; [discriminate|].
    injection Hk0 as ->. eauto.
Qed.

Lemma draw_within (rng : nat -> num) (rs : list (R * R)) :
  (forall k, exists u, rng k = Fin u /\ (0 <= u < 1)%R) ->
  proper_axes rs ->
  forall k,
    Forall2 (fun b x => exists r, x = Fin r /\ (fst b <= r <= snd b)%R)
      rs (draw rng k (real_axes rs)).
Proof.
  intros Hrng Hrs. induction Hrs as [|[lo up] rs Hb _ IH]; intros k; simpl.
  - constructor.
  - constructor; [|apply IH].
    destruct (Hrng k) as [u [-> Hu]]. simpl in *.
    eexists. split; [reflexivity|]. nra.
Qed.

(** C9.  A point that [next()] returns has one coordinate per dimension, and
    when the random source returns values in [[0, 1)] and every axis has
    [lower < upper], each coordinate lies within the bounds of its axis.
    The extent is that of the data model: one pair of finite bounds per
    dimension. *)
Theorem generated_point_within_extent
    (this this' : sampler) (rs : list (R * R)) (p : point) :
  extent this = real_axes rs ->
  length rs = dim this ->
  proper_axes rs ->
  (forall k, exists u, rng this k = Fin u /\ (0 <= u < 1)%R) ->
  next this = (Ret (Some p), this') ->
  length p = dim this /\
  Forall2 (fun b x => exists r, x = Fin r /\ (fst b <= r <= snd b)%R) rs p.
Proof.
  intros Hext Hlen Hrs Hrng Hnext.
  destruct (next_result _ _ _ Hnext) as [k0 ->]. rewrite Hext. split.
  - rewrite draw_length. unfold real_axes. rewrite length_map. exact Hlen.
  - apply draw_within; assumption.
Qed.

Lemma run_rng_unit (k : nat) : exists u, run_rng k = Fin u /\ (0 <= u < 1)%R.
Proof.
  unfold run_rng.
  do 5 (destruct k as [|k]; [eexists; split; [reflexivity|lra]|]).
  eexists; split; [reflexivity|lra].
Qed.

Lemma generated_point_within_extent_run :
  length (candidate run_start 0) = dim run_start /\
  Forall2 (fun b x => exists r, x = Fin r /\ (fst b <= r <= snd b)%R)
    [(0, 1)%R] (candidate run_start 0).
Proof.
  apply (generated_point_within_extent run_start
           (accepted run_start 0 (Some (candidate run_start 0))) [(0, 1)%R]).
  - reflexivity.
  - reflexivity.
  - constructor; [simpl; lra|constructor].
  - exact run_rng_unit.
  - apply first_step_accepts; try reflexivity; simpl; lia.
Defined.

End Generated.

(** ** The two constructors agree *)

Section Variants.

Lemma obind_Ret {A : Type} (m : outcome A) : obind m (fun a => Ret a) = m.
Proof. destruct m; reflexivity. Qed.

Lemma earlier_sample_axes (axes : list bounds) (this : Poissimple.sampler) :
  PoisSimple.sample_axes axes (earlier this) =
    (fst (Poissimple.sample_axes axes this),
     earlier (snd (Poissimple.sample_axes axes this))).
Proof.
  rewrite sample_axes_draw. cbn [fst snd].
  revert this. induction axes as [|[lower upper] rest IH]; intros this.
  - simpl. unfold ret. rewrite Nat.add_0_r, set_draws_same. reflexivity.
  - cbn [PoisSimple.sample_axes]. unfold bind at 1.
    unfold PoisSimple.call_rng, bind, get, modify, ret. cbn [fst snd].
    change (PoisSimple.set_draws (S (PoisSimple.draws (earlier this))) (earlier this))
      with (earlier (Poissimple.set_draws (S (Poissimple.draws this)) this)).
    rewrite IH. cbn [draw length Poissimple.rng Poissimple.draws Poissimple.set_draws
                     PoisSimple.rng earlier].
    rewrite set_draws_set_draws. rewrite <- plus_n_Sm. reflexivity.
Qed.

Lemma earlier_distance (this : Poissimple.sampler) (c : point) :
  Poissimple.repulsiveBoundary this = false ->
  PoisSimple._distanceToExisting (earlier this) c = Poissimple.distToNearest this c.
Proof.
  intros Hrep. unfold Poissimple.distToNearest. rewrite Hrep, obind_Ret. reflexivity.
Qed.

Lemma earlier_try_loop (k : nat) :
  forall (this : Poissimple.sampler) (best : option point) (largest : num),
    Poissimple.repulsiveBoundary this = false ->
    PoisSimple.try_loop k best largest (earlier this) =
      (fst (Poissimple.try_loop k best largest this),
       earlier (snd (Poissimple.try_loop k best largest this))).
Proof.
  induction k as [|k IH]; intros this best largest Hrep.
  - reflexivity.
  - rewrite try_loop_S. cbn zeta.
    cbn [PoisSimple.try_loop]. unfold bind at 1.
    unfold PoisSimple._sampleUniform, bind at 1, get.
    change (PoisSimple.extent (earlier this)) with (Poissimple.extent this).
    rewrite earlier_sample_axes, sample_axes_draw. cbn [fst snd].
    unfold bind at 1. unfold read.
    rewrite earlier_distance by exact Hrep.
    rewrite distToNearest_set_draws.
    destruct (Poissimple.distToNearest this _) as [d|e]; [|reflexivity].
    unfold bind at 1, get.
    change (PoisSimple.radius (earlier _)) with (Poissimple.radius this).
    destruct (gtb d (Poissimple.radius this)); [reflexivity|].
    apply IH. exact Hrep.
Qed.

Lemma earlier_next (this : Poissimple.sampler) :
  Poissimple.repulsiveBoundary this = false ->
  PoisSimple.next (earlier this) =
    (fst (Poissimple.next this), earlier (snd (Poissimple.next this))) /\
  Poissimple.repulsiveBoundary (snd (Poissimple.next this)) = false.
Proof.
  intros Hrep. split.
  - destruct (Nat.eq_dec (length (Poissimple.points this)) (Poissimple.n this)) as [H|H].
    + rewrite (next_full _ H). unfold PoisSimple.next, bind, get.
      cbn [PoisSimple.length_is PoisSimple.points PoisSimple.n earlier fst snd].
      rewrite H, Nat.eqb_refl. reflexivity.
    + rewrite (next_not_full _ H). unfold PoisSimple.next, bind at 1, get.
      cbn [PoisSimple.length_is PoisSimple.points PoisSimple.n earlier].
      apply Nat.eqb_neq in H. rewrite H.
      unfold bind at 1.
      change (PoisSimple.tries (earlier this)) with (Poissimple.tries this).
      rewrite earlier_try_loop by exact Hrep.
      destruct (Poissimple.try_loop _ _ _ this) as [[best|e] this']; reflexivity.
  - rewrite <- Hrep. apply (same_repulsiveBoundary _ _ (proj1 (next_cases this))).
Qed.

Lemma earlier_fill_loop (fuel : nat) :
  forall this : Poissimple.sampler,
    Poissimple.repulsiveBoundary this = false ->
    PoisSimple.fill_loop fuel (earlier this) =
      match Poissimple.fill_loop fuel this with
      | Some (r, this') => Some (r, earlier this')
      | None => None
      end /\
    (forall r this', Poissimple.fill_loop fuel this = Some (r, this') ->
                     Poissimple.repulsiveBoundary this' = false).
Proof.
  induction fuel as [|fuel IH]; intros this Hrep.
  - cbn [PoisSimple.fill_loop Poissimple.fill_loop].
    change (PoisSimple.length_below (length (PoisSimple.points (earlier this)))
              (PoisSimple.n (earlier this)))
      with (length (Poissimple.points this) <? Poissimple.n this).
    destruct (length (Poissimple.points this) <? Poissimple.n this).
    + split; [reflexivity|discriminate].
    + split; [reflexivity|]. intros r this' H. injection H as _ <-. exact Hrep.
  - cbn [PoisSimple.fill_loop Poissimple.fill_loop].
    change (PoisSimple.length_below (length (PoisSimple.points (earlier this)))
              (PoisSimple.n (earlier this)))
      with (length (Poissimple.points this) <? Poissimple.n this).
    destruct (length (Poissimple.points this) <? Poissimple.n this).
    + destruct (earlier_next this Hrep) as [Hnext Hrep'].
      rewrite Hnext.
      destruct (Poissimple.next this) as [[r|e] this1]; cbn [fst snd] in *.
      * apply IH. exact Hrep'.
      * split; [reflexivity|]. intros r this' H. injection H as _ <-. exact Hrep'.
    + split; [reflexivity|]. intros r this' H. injection H as _ <-. exact Hrep.
Qed.

Lemma earlier_replies (calls : list call) :
  forall this : Poissimple.sampler,
    Poissimple.repulsiveBoundary this = false ->
    PoisSimple_replies calls (earlier this) = Poissimple_replies calls this.
Proof.
  induction calls as [|[|] calls IH]; intros this Hrep.
  - reflexivity.
  - cbn [PoisSimple_replies Poissimple_replies].
    destruct (earlier_next this Hrep) as [Hnext Hrep'].
    rewrite Hnext. cbn [fst snd]. rewrite IH by exact Hrep'. reflexivity.
  - cbn [PoisSimple_replies Poissimple_replies].
    unfold PoisSimple.fill, Poissimple.fill.
    change (PoisSimple.n (earlier this)) with (Some (Poissimple.n this)).
    change (PoisSimple.points (earlier this)) with (Poissimple.points this).
    destruct (earlier_fill_loop
                (Poissimple.n this - length (Poissimple.points this)) this Hrep)
      as [Hfill Hrep'].
    rewrite Hfill.
    destruct (Poissimple.fill_loop _ this) as [[r this']|].
    + rewrite IH by (eapply Hrep'; reflexivity). reflexivity.
    + rewrite IH by exact Hrep. reflexivity.
Qed.

End Variants.

Section VariantsClaim.

Lemma constructors_agree (options : options) (rng : nat -> num) (nn dd : nat) :
  opt_n options = Some nn -> 1 <= nn ->
  opt_dimensions options = Some dd -> 2 <= dd ->
  (opt_extent options = None \/ exists axes, opt_extent options = Some (Nested axes)) ->
  (opt_repulsiveBoundary options = None \/ opt_repulsiveBoundary options = Some false) ->
  exists this,
    Poissimple.Poissimple options rng = Some (Ret this) /\
    PoisSimple.PoisSimple options rng = Ret (earlier this) /\
    Poissimple.repulsiveBoundary this = false.
Proof.
  intros Hn Hnn Hd Hdd Hext Hrep.
  unfold Poissimple.Poissimple, PoisSimple.PoisSimple.
  rewrite Hn, Hd.
  destruct nn as [|nn]; [lia|]. destruct dd as [|[|dd]]; [lia|lia|].
  cbn [or_default].
  assert (Hb : match opt_repulsiveBoundary options with Some b => b | None => false end = false)
    by (destruct Hrep as [->| ->]; reflexivity).
  rewrite Hb.
  destruct Hext as [->|[axes ->]]; cbn [Poissimple.init_extent Nat.eqb];
    eexists; (split; [reflexivity|split; reflexivity]).
Qed.

(** C10.  For every configuration in which [n] (a positive count, as the data
    model has it) and [dimensions] are supplied, [dimensions >= 2], the extent
    is absent or in nested form, and [repulsiveBoundary] is absent or false,
    both constructors return, and on the same random sequence the two objects
    answer every sequence of [next()] and [fill()] calls with the same
    values. *)
Theorem variants_agree
    (options : options) (rng : nat -> num) (nn dd : nat) (calls : list call) :
  opt_n options = Some nn -> 1 <= nn ->
  opt_dimensions options = Some dd -> 2 <= dd ->
  (opt_extent options = None \/ exists axes, opt_extent options = Some (Nested axes)) ->
  (opt_repulsiveBoundary options = None \/ opt_repulsiveBoundary options = Some false) ->
  exists (this : Poissimple.sampler) (this0 : PoisSimple.sampler),
    Poissimple.Poissimple options rng = Some (Ret this) /\
    PoisSimple.PoisSimple options rng = Ret this0 /\
    PoisSimple_replies calls this0 = Poissimple_replies calls this.
Proof.
  intros Hn Hnn Hd Hdd Hext Hrep.
  destruct (constructors_agree options rng nn dd Hn Hnn Hd Hdd Hext Hrep)
    as [this [Hnew [Hnew0 Hoff]]].
  exists this, (earlier this). split; [exact Hnew|]. split; [exact Hnew0|].
  apply earlier_replies. exact Hoff.
Qed.

Lemma variants_agree_run :
  exists (this : Poissimple.sampler) (this0 : PoisSimple.sampler),
    Poissimple.Poissimple plane_options run_rng = Some (Ret this) /\
    PoisSimple.PoisSimple plane_options run_rng = Ret this0 /\
    PoisSimple_replies [CallNext; CallFill; CallNext] this0 =
    Poissimple_replies [CallNext; CallFill; CallNext] this.
Proof.
  apply (variants_agree plane_options run_rng 3 2 [CallNext; CallFill; CallNext]).
  - reflexivity.
  - lia.
  - reflexivity.
  - lia.
  - left. reflexivity.
  - left. reflexivity.
Defined.

End VariantsClaim.

(** ** The data model is kept *)

Section DataModel.

Import Poissimple.

Lemma proper_point_draw (this : sampler) (k0 : nat) :
  well_formed this ->
  proper_point (dim this) (Some (draw (rng this) k0 (extent this))) = true.
Proof.
  intros [Hlen Hext Hrng Hpts]. cbn [proper_point].
  rewrite draw_length, Hlen, Nat.eqb_refl, draw_finite by auto. reflexivity.
Qed.

(** The constructor returns a sampler of the data model when the extent has
    one pair of finite bounds per dimension and the random source returns
    finite numbers. *)
Lemma Poissimple_well_formed
    (options : options) (rng : nat -> num) (this : sampler) (rs : list (R * R)) :
  Poissimple options rng = Some (Ret this) ->
  extent this = real_axes rs ->
  length rs = dim this ->
  (forall k, is_fin (rng k) = true) ->
  well_formed this.
Proof.
  intros Hnew Hext Hlen Hrng.
  destruct (Poissimple_initial _ _ _ Hnew) as [Hps _].
  assert (Hrng' : Poissimple.rng this = rng).
  { destruct (Poissimple_fields _ _ _ Hnew) as [axes [_ ->]]. reflexivity. }
  split.
  - rewrite Hext. unfold real_axes. rewrite length_map. exact Hlen.
  - rewrite Hext. apply real_axes_finite.
  - rewrite Hrng'. exact Hrng.
  - rewrite Hps. reflexivity.
Qed.

(** [next] keeps it, and below [n] it always produces a point. *)
Lemma next_well_formed (this : sampler) :
  well_formed this ->
  1 <= tries this ->
  well_formed (snd (next this)) /\
  (length (points this) < n this -> exists p, fst (next this) = Ret (Some p)).
Proof.
  intros Hwf Ht.
  destruct (Nat.eq_dec (length (points this)) (n this)) as [Hn|Hn].
  - rewrite (next_full _ Hn). split; [exact Hwf|]. intros H. lia.
  - destruct (next_produces this Hn Ht) as [p [m Hnext]].
    + intros k0.
      destruct (distToNearest_distance this (draw (rng this) k0 (extent this)) Hwf)
        as [d [Hd Hdist]].
      * apply draw_finite; apply Hwf.
      * rewrite draw_length. apply Hwf.
      * exists d. split; [exact Hd|apply is_distance_numeric; exact Hdist].
    + destruct (next_result _ _ _ Hnext) as [k0 Hp].
      rewrite Hnext. cbn [fst snd]. split; [|eauto].
      destruct Hwf as [Hlen Hext Hrng Hpts].
      split; cbn [extent dim rng points set_points set_draws]; auto.
      rewrite forallb_app, Hpts. cbn [forallb]. rewrite Hp.
      rewrite proper_point_draw by (split; auto). reflexivity.
Qed.

End DataModel.

(** ** The worked run, call by call *)

Section WorkedRunTrace.

Import Poissimple.

Example run_first : next run_start = (Ret (Some [Fin (1 / 4)]), run_one).
Proof.
  rewrite first_step_accepts; try reflexivity; try (simpl; lia).
  assert (Hc : candidate run_start 0 = [Fin (1 / 4)])
    by (apply (run_candidate [] 0 0); reflexivity).
  rewrite Hc. reflexivity.
Qed.

Example run_second : next run_one = (Ret (Some [Fin (7 / 8)]), run_two).
Proof.
  pose proof PI_over_12_bounds as HPI.
  destruct run_one_distances as [H0 H1]. unfold effective_distance in H0, H1.
  rewrite next_not_full by (simpl; lia).
  rewrite (try_loop_exit 1 (tries run_one) run_one None NegInf (Fin (5 / 8))).
  - assert (Hc : candidate run_one 1 = [Fin (7 / 8)])
      by (apply (run_candidate _ 1 1); reflexivity).
    rewrite Hc. reflexivity.
  - left. reflexivity.
  - simpl. lia.
  - intros i Hi. replace i with 0 by lia. exists (Fin (1 / 4)).
    rewrite (run_one_effective 0 (1 / 2)) in * by reflexivity. split.
    + exact (f_equal Ret H0).
    + apply gtb_Fin_false. simpl. lra.
  - rewrite (run_one_effective 1 (7 / 8)) in * by reflexivity. exact (f_equal Ret H1).
  - apply gtb_Fin. simpl. lra.
Qed.

(** The third step finds nothing over the radius; 1/2 and 5/8 are both 1/4
    from their nearest neighbour, and the first of them is taken. *)
Example run_third :
  next run_two =
    (Ret (Some [Fin (1 / 2)]),
     run_state [Some [Fin (1 / 4)]; Some [Fin (7 / 8)]; Some [Fin (1 / 2)]] 5).
Proof.
  pose proof PI_over_12_bounds as HPI.
  destruct run_two_distances as [H0 H1].
  assert (Hwf : well_formed run_two) by (apply run_state_well_formed; reflexivity).
  rewrite next_not_full by (simpl; lia).
  destruct (try_loop_best run_two (effective_distance run_two) (tries run_two))
    as [m [Hm [Hrun [Hmax Hfirst]]]].
  - simpl. lia.
  - intros i Hi. simpl in Hi.
    destruct (effective_distance_Ret run_two i Hwf) as [Hd Hdist].
    split; [exact Hd|]. split; [|apply is_distance_numeric; exact Hdist].
    assert (Hi' : effective_distance run_two i = Fin (1 / 4))
      by (destruct i as [|[|i]]; [exact H0|exact H1|lia]).
    rewrite Hi'. apply gtb_Fin_false. simpl. lra.
  - assert (Hm0 : m = 0).
    { destruct m as [|m]; [reflexivity|]. simpl in Hm.
      assert (m = 0) by lia. subst m.
      specialize (Hfirst 0 ltac:(lia)). rewrite H0, H1 in Hfirst.
      apply gtb_Fin in Hfirst. lra. }
    subst m. rewrite Hrun.
    assert (Hc : candidate run_two 0 = [Fin (1 / 2)])
      by (apply (run_candidate _ 3 0); reflexivity).
    rewrite Hc. reflexivity.
Qed.

Example run_fourth :
  next (run_state [Some [Fin (1 / 4)]; Some [Fin (7 / 8)]; Some [Fin (1 / 2)]] 5) =
    (Ret None, run_state [Some [Fin (1 / 4)]; Some [Fin (7 / 8)]; Some [Fin (1 / 2)]] 5).
Proof. apply next_full. reflexivity. Qed.

Example run_fill :
  fill run_start =
    Some (Ret [Some [Fin (1 / 4)]; Some [Fin (7 / 8)]; Some [Fin (1 / 2)]],
          run_state [Some [Fin (1 / 4)]; Some [Fin (7 / 8)]; Some [Fin (1 / 2)]] 5).
Proof.
  unfold fill. change (n run_start - length (points run_start)) with 3.
  cbn [fill_loop]. change (length (points run_start) <? n run_start) with true.
  cbn iota. rewrite run_first.
  change (length (points run_one) <? n run_one) with true.
  cbn iota. rewrite run_second.
  change (length (points run_two) <? n run_two) with true.
  cbn iota. rewrite run_third. reflexivity.
Qed.

End WorkedRunTrace.

(** * Further properties of the code *)

(** ** What passing the radius guarantees *)

Section Separation.

Import Poissimple.

Lemma gtb_min2 (a b r : num) :
  gtb (min2 a b) r = true -> gtb a r = true /\ gtb b r = true.
Proof.
  destruct a, b, r; simpl; try discriminate; auto;
    repeat match goal with
           | |- context [Rlt_dec ?u ?v] => destruct (Rlt_dec u v); simpl
           end;
    intros; try discriminate; split; auto; lra.
Qed.

Lemma _distanceToExisting_over (this : sampler) (c : point) (r : num) :
  forall (ps : list (option point)) (acc d : num),
    fold_outcome
      (fun minDistance p =>
         obind (_distance this p c) (fun currentDistance =>
         Ret (Math_min [minDistance; currentDistance])))
      ps acc = Ret d ->
    gtb d r = true ->
    gtb acc r = true /\
    forall q, In (Some q) ps -> gtb (distance (dim this) q c) r = true.
Proof.
  induction ps as [|p ps IH]; intros acc d Hfold Hover; simpl in Hfold.
  - injection Hfold as <-. split; [exact Hover|]. intros q [].
  - destruct (_distance this p c) as [x|e] eqn:Hx; [|discriminate].
    simpl in Hfold. rewrite Math_min_pair in Hfold.
    destruct (IH _ _ Hfold Hover) as [Hacc Hall].
    apply gtb_min2 in Hacc as [Ha Hxr].
    split; [exact Ha|]. intros q [Hq|Hq]; [|apply Hall; exact Hq].
    subst p. rewrite _distance_Some in Hx. injection Hx as <-. exact Hxr.
Qed.

Lemma distToNearest_over (this : sampler) (c : point) (d : num) :
  distToNearest this c = Ret d ->
  gtb d (radius this) = true ->
  (forall q, In (Some q) (points this) ->
     gtb (distance (dim this) q c) (radius this) = true) /\
  (repulsiveBoundary this = true ->
     exists b, _distanceToBoundary this c = Ret b /\
               gtb (mul (Fin 2) b) (radius this) = true).
Proof.
  unfold distToNearest. intros Hd Hover.
  destruct (_distanceToExisting this c) as [d0|e] eqn:Hd0; [|discriminate].
  cbn [obind] in Hd. destruct (repulsiveBoundary this).
  - destruct (_distanceToBoundary this c) as [b|e] eqn:Hb; [|discriminate].
    cbn [obind] in Hd. injection Hd as <-. rewrite Math_min_pair in Hover.
    apply gtb_min2 in Hover as [H0 H2]. split.
    + apply (_distanceToExisting_over this c _ _ _ _ Hd0 H0).
    + intros _. exists b. split; [reflexivity|exact H2].
  - injection Hd as <-. split; [|discriminate].
    apply (_distanceToExisting_over this c _ _ _ _ Hd0 Hover).
Qed.

Lemma effective_distance_over (this : sampler) (j : nat) :
  gtb (effective_distance this j) (radius this) = true ->
  distToNearest this (candidate this j) = Ret (effective_distance this j).
Proof.
  unfold effective_distance.
  destruct (distToNearest this (candidate this j)); [reflexivity|discriminate].
Qed.

(** X1.  A candidate whose effective distance passes the radius (the one
    [next()] accepts at its early exit) is farther than the radius from every
    point accepted so far. *)
Theorem accepted_over_radius_is_separated (this : sampler) (j : nat) (q : point) :
  gtb (effective_distance this j) (radius this) = true ->
  In (Some q) (points this) ->
  gtb (distance (dim this) q (candidate this j)) (radius this) = true.
Proof.
  intros Hover Hq.
  apply (distToNearest_over this _ _ (effective_distance_over this j Hover) Hover).
  exact Hq.
Qed.

Lemma accepted_over_radius_is_separated_run :
  gtb (distance (dim run_one) [Fin (1 / 4)] (candidate run_one 1)) (radius run_one) = true.
Proof.
  apply (accepted_over_radius_is_separated run_one 1 [Fin (1 / 4)]).
  - rewrite (proj2 run_one_distances). apply gtb_Fin.
    pose proof PI_over_12_bounds. simpl. lra.
  - left. reflexivity.
Defined.

Lemma double_over (b : num) (r : R) :
  gtb (mul (Fin 2) b) (Fin r) = true -> gtb b (Fin (r / 2)) = true.
Proof.
  destruct b as [| |v|]; simpl.
  - discriminate.
  - destruct (Rlt_dec 0 2); [discriminate|lra].
  - destruct (Rlt_dec r (2 * v)); [|discriminate].
    intros _. destruct (Rlt_dec (r / 2) v); [reflexivity|lra].
  - reflexivity.
Qed.

Lemma fold_min2_over (l : list num) (t : num) :
  forall acc, gtb (fold_left min2 l acc) t = true ->
  gtb acc t = true /\ forall x, In x l -> gtb x t = true.
Proof.
  induction l as [|y l IH]; intros acc H; simpl in *.
  - split; [exact H|]. intros x [].
  - destruct (IH _ H) as [Hacc Hall]. apply gtb_min2 in Hacc as [Ha Hy].
    split; [exact Ha|]. intros x [<-|Hx]; auto.
Qed.

Lemma boundary_distance_over (rs : list (R * R)) (t : R) :
  forall c : point,
    length c = length rs ->
    forallb is_fin c = true ->
    gtb (boundary_distance (real_axes rs) c) (Fin t) = true ->
    Forall2
      (fun b x => exists v, x = Fin v /\
                            (t < Rabs (v - fst b))%R /\ (t < Rabs (snd b - v))%R)
      rs c.
Proof.
  unfold boundary_distance, Math_min. intros c Hlen Hfin H.
  apply fold_min2_over in H as [_ Hall].
  revert c Hlen Hfin Hall.
  induction rs as [|[lo up] rs IH]; intros [|x c] Hlen Hfin Hall;
    simpl in Hlen; try discriminate.
  - constructor.
  - simpl in Hfin. apply andb_prop in Hfin as [Hx Hfin].
    constructor.
    + specialize (Hall (nearer_edge_distance (Fin lo, Fin up) x)).
      cbn [real_axes map combine fst snd In] in Hall.
      specialize (Hall (or_introl eq_refl)).
      unfold nearer_edge_distance in Hall. rewrite Math_min_pair in Hall.
      apply gtb_min2 in Hall as [H1 H2]. cbn [fst snd] in *.
      destruct (is_fin_Fin x Hx) as [v ->].
      exists v. split; [reflexivity|].
      apply gtb_Fin in H1. apply gtb_Fin in H2. split; [exact H1|exact H2].
    + apply IH; [lia|exact Hfin|]. intros y Hy. apply Hall. right. exact Hy.
Qed.

(** X2.  Under [repulsiveBoundary], over a finite extent and finite random
    values, a candidate whose effective distance passes the radius [r] has
    every coordinate more than [r / 2] away from both edges of its axis: the
    clearance that the factor 2 in [next] is there for. *)
Theorem accepted_over_radius_clears_edges
    (this : sampler) (j : nat) (rs : list (R * R)) (r : R) :
  repulsiveBoundary this = true ->
  extent this = real_axes rs ->
  (forall k, is_fin (rng this k) = true) ->
  radius this = Fin r ->
  gtb (effective_distance this j) (radius this) = true ->
  Forall2
    (fun b x => exists v, x = Fin v /\
                          (r / 2 < Rabs (v - fst b))%R /\ (r / 2 < Rabs (snd b - v))%R)
    rs (candidate this j).
Proof.
  intros Hrep Hext Hrng Hr Hover.
  destruct (distToNearest_over this _ _ (effective_distance_over this j Hover) Hover)
    as [_ Hb].
  destruct (Hb Hrep) as [b [Hbd Hb2]].
  rewrite _distanceToBoundary_is_boundary_distance in Hbd
    by (rewrite candidate_length; lia).
  injection Hbd as <-. rewrite Hr in Hb2. apply double_over in Hb2.
  rewrite Hext in Hb2. apply boundary_distance_over; [| |exact Hb2].
  - rewrite candidate_length, Hext. unfold real_axes. apply length_map.
  - unfold candidate. apply draw_finite; [exact Hrng|].
    rewrite Hext. apply real_axes_finite.
Qed.

End Separation.

Section SeparationRun.

Import Poissimple.

Lemma guard_start_constructed : Poissimple guard_options edge_rng = Some (Ret guard_start).
Proof.
  unfold Poissimple, guard_options. cbn -[Math_pow div mul sub Math_PI INR].
  assert (Hv : mul (Fin 1) (sub (Fin 1) (Fin 0)) = Fin 1) by (simpl; f_equal; lra).
  rewrite Hv.
  assert (Hr : mul (div Math_PI (Fin 4))
                 (Math_pow (div (Fin 1) (of_nat 2)) (div (Fin 1) (of_nat 1))) =
               Fin (PI / 8)).
  { unfold of_nat, Math_PI. rewrite !div_Fin by (simpl; lra).
    rewrite Math_pow_positive by (simpl; lra).
    cbn [mul]. f_equal. simpl INR. replace (1 / 1)%R with 1%R by lra.
    rewrite Rpower_1 by lra. lra. }
  rewrite Hr. reflexivity.
Qed.

Lemma guard_effective_1 : effective_distance guard_start 1 = Fin 1.
Proof.
  unfold effective_distance.
  assert (Hc : candidate guard_start 1 = [Fin (1 / 2)])
    by (unfold candidate; apply unit_draw; reflexivity).
  rewrite Hc. unfold distToNearest.
  rewrite _distanceToExisting_empty by reflexivity.
  cbn [obind repulsiveBoundary guard_start].
  rewrite _distanceToBoundary_is_boundary_distance by (simpl; lia).
  cbn [obind]. rewrite Math_min_pair, min2_PosInf.
  unfold boundary_distance. cbn [extent guard_start combine map fst snd].
  unfold Math_min. cbn [fold_left]. rewrite min2_PosInf, nearer_edge_distance_Fin.
  cbn [mul]. f_equal.
  replace (1 / 2 - 0)%R with (1 / 2)%R by lra.
  replace (1 - 1 / 2)%R with (1 / 2)%R by lra.
  rewrite !Rabs_pos_eq by lra. rewrite Rmin_left by lra. lra.
Qed.

Lemma accepted_over_radius_clears_edges_run :
  Forall2
    (fun b x => exists v, x = Fin v /\
                          (PI / 8 / 2 < Rabs (v - fst b))%R /\
                          (PI / 8 / 2 < Rabs (snd b - v))%R)
    [(0, 1)%R] (candidate guard_start 1).
Proof.
  apply (accepted_over_radius_clears_edges guard_start 1 [(0, 1)%R] (PI / 8)).
  - reflexivity.
  - reflexivity.
  - intros k. destruct k; reflexivity.
  - reflexivity.
  - rewrite guard_effective_1. apply gtb_Fin. pose proof PI_4. simpl. lra.
Defined.

End SeparationRun.

(** ** The distance between two points *)

Section Metric.

Import Poissimple.

Lemma sub_swap (a b : num) : sub b a = neg (sub a b).
Proof. destruct a, b; simpl; try reflexivity. f_equal. lra. Qed.

Lemma Math_hypot_neg (l : list num) : Math_hypot (map neg l) = Math_hypot l.
Proof.
  unfold Math_hypot.
  assert (Hi : existsb is_inf (map neg l) = existsb is_inf l).
  { induction l as [|x l IH]; simpl; [reflexivity|]. rewrite IH. destruct x; reflexivity. }
  assert (Hn : existsb is_nan (map neg l) = existsb is_nan l).
  { clear Hi. induction l as [|x l IH]; simpl; [reflexivity|]. rewrite IH.
    destruct x; reflexivity. }
  assert (Hs : map square_or_zero (map neg l) = map square_or_zero l).
  { clear Hi Hn. induction l as [|x l IH]; simpl; [reflexivity|]. rewrite IH.
    f_equal. destruct x; simpl; lra. }
  rewrite Hi, Hn, Hs. reflexivity.
Qed.

(** X3.  [_distance] is symmetric, whatever the two arrays hold (missing
    coordinates, NaN and infinities included). *)
Theorem _distance_symmetric (this : sampler) (p q : point) :
  _distance this (Some p) q = _distance this (Some q) p.
Proof.
  rewrite !_distance_Some. f_equal. unfold distance.
  rewrite <- Math_hypot_neg. rewrite map_map. f_equal.
  apply map_ext. intros i. symmetry. apply sub_swap.
Qed.

Lemma differences_real (xs : list R) :
  forall (ys : list R) (k : nat),
    length xs = k -> length ys = k ->
    map (fun i => sub (at_index (map Fin ys) i) (at_index (map Fin xs) i)) (seq 0 k) =
    map (fun xy => Fin (snd xy - fst xy)) (combine xs ys).
Proof.
  induction xs as [|x xs IH]; intros [|y ys] k Hx Hy; simpl in *; subst k;
    try discriminate; [reflexivity|].
  cbn [seq map]. rewrite <- seq_shift, map_map. f_equal.
  apply IH; [reflexivity|lia].
Qed.

Lemma Math_hypot_real (ds : list R) :
  Math_hypot (map Fin ds) = Fin (sqrt (fold_right Rplus 0%R (map (fun d => d * d)%R ds))).
Proof.
  unfold Math_hypot.
  assert (Hfin : forallb is_fin (map Fin ds) = true)
    by (induction ds; simpl; auto).
  rewrite (finite_no_inf _ Hfin), (finite_no_nan _ Hfin), map_map. reflexivity.
Qed.

Lemma sum_squares_nonneg (ds : list R) :
  (0 <= fold_right Rplus 0 (map (fun d => d * d) ds))%R.
Proof. induction ds as [|d ds IH]; simpl; [lra|]. nra. Qed.

Lemma sum_squares_zero (xs : list R) :
  forall ys, length xs = length ys ->
  (fold_right Rplus 0
     (map (fun xy => (snd xy - fst xy) * (snd xy - fst xy)) (combine xs ys)) = 0)%R ->
  xs = ys.
Proof.
  induction xs as [|x xs IH]; intros [|y ys] Hlen H; simpl in *; try discriminate;
    [reflexivity|].
  pose proof (sum_squares_nonneg (map (fun xy => snd xy - fst xy)%R (combine xs ys))) as Hs.
  rewrite map_map in Hs. cbv beta in Hs.
  pose proof (Rle_0_sqr (y - x)) as Hsq. unfold Rsqr in Hsq.
  set (rest := fold_right Rplus 0%R
                 (map (fun xy => ((snd xy - fst xy) * (snd xy - fst xy))%R)
                    (combine xs ys))) in *.
  assert (Hxy : ((y - x) * (y - x) = 0)%R) by lra.
  assert (Hrest : rest = 0%R) by lra.
  f_equal; [nra|]. apply IH; [lia|exact Hrest].
Qed.

Lemma sum_squares_same (xs : list R) :
  (fold_right Rplus 0
     (map (fun xy => (snd xy - fst xy) * (snd xy - fst xy)) (combine xs xs)) = 0)%R.
Proof. induction xs as [|x xs IH]; simpl; [reflexivity|]. rewrite IH. lra. Qed.

(** X4.  On two points of [dim] finite coordinates [_distance] is the
    Euclidean distance, the square root of the sum of the squared coordinate
    differences; it is never negative, and it is 0 exactly when the two
    points are the same. *)
Theorem _distance_is_euclidean (this : sampler) (xs ys : list R) :
  length xs = dim this ->
  length ys = dim this ->
  _distance this (Some (map Fin xs)) (map Fin ys) = Ret (Fin (euclid xs ys)) /\
  (0 <= euclid xs ys)%R /\
  (euclid xs ys = 0%R <-> xs = ys).
Proof.
  intros Hx Hy. split; [|split].
  - rewrite _distance_Some. f_equal. unfold distance, euclid.
    rewrite (differences_real xs ys (dim this) Hx Hy).
    rewrite <- (map_map (fun xy => (snd xy - fst xy)%R) Fin), Math_hypot_real, map_map.
    reflexivity.
  - apply sqrt_pos.
  - unfold euclid. split.
    + intros H. apply sum_squares_zero; [congruence|].
      apply sqrt_eq_0; [|exact H].
      pose proof (sum_squares_nonneg (map (fun xy => snd xy - fst xy)%R (combine xs ys))) as Hs.
      rewrite map_map in Hs. exact Hs.
    + intros ->. rewrite sum_squares_same. apply sqrt_0.
Qed.

Lemma _distance_is_euclidean_run :
  _distance run_one (Some (map Fin [(1 / 4)%R])) (map Fin [(7 / 8)%R]) =
    Ret (Fin (euclid [(1 / 4)%R] [(7 / 8)%R])) /\
  (0 <= euclid [(1 / 4)%R] [(7 / 8)%R])%R /\
  (euclid [(1 / 4)%R] [(7 / 8)%R] = 0%R <-> [(1 / 4)%R] = [(7 / 8)%R]).
Proof.
  apply (_distance_is_euclidean run_one [(1 / 4)%R] [(7 / 8)%R]); reflexivity.
Defined.

End Metric.

(** ** The nearest neighbour *)

Section Nearest.

Import Poissimple.

Lemma min2_under (a b d : num) :
  is_distance a -> is_distance b ->
  gtb d (min2 a b) = false -> gtb d a = false /\ gtb d b = false.
Proof.
  intros [->|[x [-> Hx]]] [->|[y [-> Hy]]]; destruct d; simpl; auto;
    repeat match goal with
           | |- context [Rlt_dec ?u ?v] => destruct (Rlt_dec u v); simpl
           end;
    intros; try discriminate; split; auto; lra.
Qed.

Lemma min2_either (a b : num) :
  is_distance a -> is_distance b -> min2 a b = a \/ min2 a b = b.
Proof.
  intros [->|[x [-> Hx]]] [->|[y [-> Hy]]]; simpl; auto.
  destruct (Rlt_dec y x); auto.
Qed.

Lemma distance_finite (dim : nat) (p1 p2 : point) :
  forallb is_fin p1 = true -> length p1 = dim ->
  forallb is_fin p2 = true -> length p2 = dim ->
  exists r, distance dim p1 p2 = Fin r /\ (0 <= r)%R.
Proof.
  intros H1 L1 H2 L2. unfold distance, Math_hypot.
  assert (Hfin : forallb is_fin
            (map (fun i => sub (at_index p2 i) (at_index p1 i)) (seq 0 dim)) = true).
  { apply forallb_forall. intros x Hx. apply in_map_iff in Hx as [i [<- Hi]].
    apply in_seq in Hi. apply sub_finite; apply at_index_finite; auto; lia. }
  rewrite (finite_no_inf _ Hfin), (finite_no_nan _ Hfin).
  eexists. split; [reflexivity|apply sqrt_pos].
Qed.

Lemma _distanceToExisting_nearest (this : sampler) (c : point) :
  forallb is_fin c = true -> length c = dim this ->
  forall (ps : list (option point)) (acc : num),
    forallb (proper_point (dim this)) ps = true ->
    is_distance acc ->
    exists d,
      fold_outcome
        (fun minDistance p =>
           obind (_distance this p c) (fun currentDistance =>
           Ret (Math_min [minDistance; currentDistance])))
        ps acc = Ret d /\
      is_distance d /\
      gtb d acc = false /\
      (forall q, In (Some q) ps -> gtb d (distance (dim this) q c) = false) /\
      (d = acc \/ exists q, In (Some q) ps /\ d = distance (dim this) q c).
Proof.
  intros Hc Lc. induction ps as [|p ps IH]; intros acc Hps Hacc; simpl in *.
  - exists acc. split; [reflexivity|]. split; [exact Hacc|].
    split; [apply gtb_irrefl|]. split; [intros q []|left; reflexivity].
  - apply andb_prop in Hps as [Hp Hps].
    destruct p as [q|]; [|discriminate]. simpl in Hp.
    apply andb_prop in Hp as [Lq Hq]. apply Nat.eqb_eq in Lq.
    rewrite _distance_Some. cbn [obind]. rewrite Math_min_pair.
    assert (Hx : is_distance (distance (dim this) q c))
      by (apply distance_is_distance; auto).
    destruct (IH (min2 acc (distance (dim this) q c)) Hps) as [d [Hd [Hdist [Hle [Hall Hwhich]]]]].
    { apply min2_distance; auto. }
    exists d. split; [exact Hd|]. split; [exact Hdist|].
    destruct (min2_under _ _ _ Hacc Hx Hle) as [Hle1 Hle2].
    split; [exact Hle1|]. split.
    + intros q' [Hq'|Hq']; [injection Hq' as <-; exact Hle2|apply Hall; exact Hq'].
    + destruct Hwhich as [->|[q' [Hin ->]]].
      * destruct (min2_either _ _ Hacc Hx) as [->| ->]; [left; reflexivity|].
        right. exists q. split; [left; reflexivity|reflexivity].
      * right. exists q'. split; [right; exact Hin|reflexivity].
Qed.

(** X5.  On the data model [_distanceToExisting] returns the distance to the
    nearest accepted point: no accepted point is closer to the candidate than
    the value returned, some accepted point is exactly that far, and with no
    accepted point the value is [+Infinity]. *)
Theorem _distanceToExisting_is_nearest (this : sampler) (c : point) :
  well_formed this ->
  forallb is_fin c = true ->
  length c = dim this ->
  exists d,
    _distanceToExisting this c = Ret d /\
    (forall q, In (Some q) (points this) ->
       gtb d (distance (dim this) q c) = false) /\
    (points this = [] -> d = PosInf) /\
    (points this <> [] ->
       exists q, In (Some q) (points this) /\ d = distance (dim this) q c).
Proof.
  intros [Hlen Hext Hrng Hpts] Hc Lc. unfold _distanceToExisting.
  destruct (_distanceToExisting_nearest this c Hc Lc (points this) PosInf Hpts)
    as [d [Hd [Hdist [_ [Hall Hwhich]]]]]; [left; reflexivity|].
  exists d. split; [exact Hd|]. split; [exact Hall|]. split.
  - intros Hnil. rewrite Hnil in Hd. simpl in Hd. injection Hd as <-. reflexivity.
  - intros Hne. destruct Hwhich as [->|Hq]; [|exact Hq].
    destruct (points this) as [|p ps] eqn:Hps; [contradiction|].
    simpl in Hpts. apply andb_prop in Hpts as [Hp _].
    destruct p as [q|]; [|discriminate]. simpl in Hp.
    apply andb_prop in Hp as [Lq Hq]. apply Nat.eqb_eq in Lq.
    destruct (distance_finite (dim this) q c Hq Lq Hc Lc) as [r [Hr _]].
    specialize (Hall q (or_introl eq_refl)). rewrite Hr in Hall. discriminate.
Qed.

Lemma _distanceToExisting_is_nearest_run :
  exists d,
    _distanceToExisting run_two [Fin (1 / 2)] = Ret d /\
    (forall q, In (Some q) (points run_two) ->
       gtb d (distance (dim run_two) q [Fin (1 / 2)]) = false) /\
    (points run_two = [] -> d = PosInf) /\
    (points run_two <> [] ->
       exists q, In (Some q) (points run_two) /\
                 d = distance (dim run_two) q [Fin (1 / 2)]).
Proof.
  apply (_distanceToExisting_is_nearest run_two [Fin (1 / 2)]).
  - apply run_state_well_formed. reflexivity.
  - reflexivity.
  - reflexivity.
Defined.

End Nearest.

(** ** The life of a sampler *)

Section Lifecycle.

Import Poissimple.

(** On the data model a step below [n] appends a point it drew. *)
Lemma next_step_well_formed (this : sampler) :
  well_formed this ->
  1 <= tries this ->
  length (points this) <> n this ->
  exists k0 m,
    next this =
      (Ret (Some (draw (rng this) k0 (extent this))),
       set_points (points this ++ [Some (draw (rng this) k0 (extent this))])
         (set_draws m this)).
Proof.
  intros Hwf Ht Hn.
  destruct (next_produces this Hn Ht) as [p [m Hnext]].
  - intros k0.
    destruct (distToNearest_distance this (draw (rng this) k0 (extent this)) Hwf)
      as [d [Hd Hdist]].
    + apply draw_finite; apply Hwf.
    + rewrite draw_length. apply Hwf.
    + exists d. split; [exact Hd|apply is_distance_numeric; exact Hdist].
  - destruct (next_result _ _ _ Hnext) as [k0 Hp]. subst p.
    exists k0, m. exact Hnext.
Qed.

Lemma well_formed_step (this : sampler) (k0 m : nat) :
  well_formed this ->
  well_formed
    (set_points (points this ++ [Some (draw (rng this) k0 (extent this))])
       (set_draws m this)).
Proof.
  intros Hwf. pose proof (proper_point_draw this k0 Hwf) as Hp.
  destruct Hwf as [Hlen Hext Hrng Hpts].
  split; cbn [extent dim rng points set_points set_draws]; auto.
  rewrite forallb_app, Hpts. cbn [forallb]. rewrite Hp. reflexivity.
Qed.

(** X6.  On the data model, with a positive try budget, the first
    [n - length] calls of [next()] each return a point and every later call
    returns [null]. *)
Theorem next_returns_points_then_null (k : nat) :
  forall (this : sampler) (i : nat) (r : reply),
    well_formed this ->
    1 <= tries this ->
    length (points this) <= n this ->
    nth_error (Poissimple_replies (repeat CallNext k) this) i = Some r ->
    (i < n this - length (points this) -> exists p, r = NextReply (Ret (Some p))) /\
    (n this - length (points this) <= i -> r = NextReply (Ret None)).
Proof.
  induction k as [|k IH]; intros this i r Hwf Ht Hle Hnth.
  - destruct i; discriminate.
  - cbn [repeat Poissimple_replies] in Hnth.
    destruct (Nat.eq_dec (length (points this)) (n this)) as [Hfull|Hnot].
    + rewrite (next_full _ Hfull) in Hnth. cbn [fst snd] in Hnth.
      split; [intros Hi; lia|intros _].
      destruct i as [|i]; [injection Hnth as <-; reflexivity|].
      simpl in Hnth. apply (IH this i r Hwf Ht Hle Hnth). lia.
    + destruct (next_step_well_formed this Hwf Ht Hnot) as [k0 [m Hnext]].
      rewrite Hnext in Hnth. cbn [fst snd] in Hnth.
      destruct i as [|i].
      * injection Hnth as <-. split; [eauto|intros Hi; lia].
      * simpl in Hnth.
        destruct (IH _ i r (well_formed_step this k0 m Hwf)) as [Hsome Hnone]; auto.
        { cbn [points set_points n]. rewrite length_app. simpl. lia. }
        cbn [points set_points n set_draws] in Hsome, Hnone.
        rewrite length_app in Hsome, Hnone. simpl in Hsome, Hnone.
        split; intros Hi; [apply Hsome|apply Hnone]; lia.
Qed.

Lemma next_returns_points_then_null_run :
  (3 < n run_start - length (points run_start) ->
     exists p, NextReply (Ret (@None point)) = NextReply (Ret (Some p))) /\
  (n run_start - length (points run_start) <= 3 ->
     NextReply (Ret (@None point)) = NextReply (Ret None)).
Proof.
  apply (next_returns_points_then_null 4 run_start 3).
  - apply run_state_well_formed. reflexivity.
  - simpl. lia.
  - simpl. lia.
  - cbn [repeat Poissimple_replies nth_error].
    rewrite run_first. cbn [fst snd]. rewrite run_second. cbn [fst snd].
    rewrite run_third. cbn [fst snd]. rewrite run_fourth. reflexivity.
Defined.

(** X7.  When [fill()] returns, the array it returns holds exactly [n]
    points; calling [fill()] again returns the same array and changes
    nothing, and [next()] returns [null]. *)
Theorem fill_is_idempotent (this this' : sampler) (ps : list (option point)) :
  length (points this) <= n this ->
  fill this = Some (Ret ps, this') ->
  length ps = n this /\
  getPoints this' = ps /\
  fill this' = Some (Ret ps, this') /\
  next this' = (Ret None, this').
Proof.
  intros Hle Hfill.
  destruct (fill_total this Hle) as [r [s [Hf [Hc [_ Hret]]]]].
  rewrite Hfill in Hf. injection Hf as <- <-.
  destruct (Hret ps eq_refl) as [Hps Hlen].
  split; [rewrite Hlen; apply Hc|]. split; [symmetry; exact Hps|].
  assert (Hfull : length (points this') = n this') by (rewrite <- Hps; exact Hlen).
  split; [|apply next_full; exact Hfull].
  unfold fill. rewrite Hfull, Nat.sub_diag. cbn [fill_loop].
  rewrite Hfull, Nat.ltb_irrefl, <- Hps. reflexivity.
Qed.

Lemma fill_is_idempotent_run :
  length [Some [Fin (1 / 4)]; Some [Fin (7 / 8)]; Some [Fin (1 / 2)]] = n run_start /\
  getPoints (run_state [Some [Fin (1 / 4)]; Some [Fin (7 / 8)]; Some [Fin (1 / 2)]] 5) =
    [Some [Fin (1 / 4)]; Some [Fin (7 / 8)]; Some [Fin (1 / 2)]] /\
  fill (run_state [Some [Fin (1 / 4)]; Some [Fin (7 / 8)]; Some [Fin (1 / 2)]] 5) =
    Some (Ret [Some [Fin (1 / 4)]; Some [Fin (7 / 8)]; Some [Fin (1 / 2)]],
          run_state [Some [Fin (1 / 4)]; Some [Fin (7 / 8)]; Some [Fin (1 / 2)]] 5) /\
  next (run_state [Some [Fin (1 / 4)]; Some [Fin (7 / 8)]; Some [Fin (1 / 2)]] 5) =
    (Ret None, run_state [Some [Fin (1 / 4)]; Some [Fin (7 / 8)]; Some [Fin (1 / 2)]] 5).
Proof.
  apply (fill_is_idempotent run_start).
  - simpl. lia.
  - exact run_fill.
Defined.

(** X8.  On the data model, with a positive try budget, [fill()] does what
    [n - length] calls of [next()] do: it leaves [this] as they leave it and
    returns the collection they build. *)
Theorem fill_is_repeated_next (this : sampler) :
  well_formed this ->
  1 <= tries this ->
  length (points this) <= n this ->
  fill this =
    Some (Ret (points (after_calls (repeat CallNext (n this - length (points this))) this)),
          after_calls (repeat CallNext (n this - length (points this))) this).
Proof.
  unfold fill. remember (n this - length (points this)) as fuel eqn:Hfuel.
  revert this Hfuel. induction fuel as [|fuel IH]; intros this Hfuel Hwf Ht Hle.
  - cbn [fill_loop repeat after_calls fold_left].
    replace (length (points this) <? n this) with false; [reflexivity|].
    symmetry. apply Nat.ltb_ge. lia.
  - cbn [fill_loop repeat after_calls fold_left after_call].
    replace (length (points this) <? n this) with true
      by (symmetry; apply Nat.ltb_lt; lia).
    destruct (next_step_well_formed this Hwf Ht) as [k0 [m Hnext]]; [lia|].
    rewrite Hnext. cbn [snd]. apply IH.
    + cbn [points set_points n set_draws]. rewrite length_app. simpl. lia.
    + apply well_formed_step. exact Hwf.
    + exact Ht.
    + cbn [points set_points n set_draws]. rewrite length_app. simpl. lia.
Qed.

Lemma fill_is_repeated_next_run :
  fill run_start =
    Some (Ret (points (after_calls
                         (repeat CallNext (n run_start - length (points run_start)))
                         run_start)),
          after_calls (repeat CallNext (n run_start - length (points run_start)))
            run_start).
Proof.
  apply (fill_is_repeated_next run_start).
  - apply run_state_well_formed. reflexivity.
  - simpl. lia.
  - simpl. lia.
Defined.

Lemma fill_loop_appends (fuel : nat) :
  forall (this this' : sampler) (r : outcome (list (option point))),
    fill_loop fuel this = Some (r, this') ->
    exists tail, points this' = points this ++ tail.
Proof.
  induction fuel as [|fuel IH]; intros this this' r H; cbn [fill_loop] in H.
  - destruct (length (points this) <? n this); [discriminate|].
    injection H as _ <-. exists []. rewrite app_nil_r. reflexivity.
  - destruct (length (points this) <? n this).
    + destruct (next_cases this) as [_ [[_ Hn]|[_ [[e [Hf Hp]]|[b [Hf Hp]]]]]].
      * rewrite Hn in H. apply IH in H. exact H.
      * destruct (next this) as [o s]. cbn [fst snd] in *. subst o.
        injection H as _ <-. exists []. rewrite app_nil_r. exact Hp.
      * destruct (next this) as [o s]. cbn [fst snd] in *. subst o.
        apply IH in H as [tail Htail]. exists (b :: tail).
        rewrite Htail, Hp, <- app_assoc. reflexivity.
    + injection H as _ <-. exists []. rewrite app_nil_r. reflexivity.
Qed.

(** X9.  The accepted-points collection is append-only: whatever [next()]
    and [fill()] calls are made, and whether or not they throw, the points
    that were there stay there, in the same order, at the front. *)
Theorem accepted_points_are_append_only (calls : list call) :
  forall this : sampler,
    exists tail, getPoints (after_calls calls this) = getPoints this ++ tail.
Proof.
  unfold getPoints.
  induction calls as [|c calls IH]; intros this; cbn [after_calls fold_left].
  - exists []. rewrite app_nil_r. reflexivity.
  - assert (Hc : exists tail, points (after_call c this) = points this ++ tail).
    { destruct c; cbn [after_call].
      - destruct (next_cases this) as [_ [[_ Hn]|[_ [[e [_ Hp]]|[b [_ Hp]]]]]].
        + rewrite Hn. exists []. rewrite app_nil_r. reflexivity.
        + exists []. rewrite app_nil_r. exact Hp.
        + exists [b]. exact Hp.
      - destruct (fill this) as [[r s]|] eqn:Hfill.
        + apply (fill_loop_appends _ _ _ _ Hfill).
        + exists []. rewrite app_nil_r. reflexivity. }
    destruct Hc as [t1 H1]. destruct (IH (after_call c this)) as [t2 H2].
    exists (t1 ++ t2). unfold after_calls in H2. rewrite H2, H1, app_assoc. reflexivity.
Qed.

End Lifecycle.

(** ** Steps that fail *)

Section Failures.

Import Poissimple.

Lemma _distanceToExisting_null (this : sampler) (c : point) :
  1 <= dim this ->
  forall (ps : list (option point)) (acc : num),
    In None ps ->
    fold_outcome
      (fun minDistance p =>
         obind (_distance this p c) (fun currentDistance =>
         Ret (Math_min [minDistance; currentDistance])))
      ps acc = Throw TypeError.
Proof.
  intros Hdim. induction ps as [|p ps IH]; intros acc Hin; [destruct Hin|].
  cbn [fold_outcome]. destruct p as [q|].
  - rewrite _distance_Some. cbn [obind]. apply IH.
    destruct Hin as [Hin|Hin]; [discriminate|exact Hin].
  - rewrite _distance_None.
    replace (dim this =? 0) with false by (symmetry; apply Nat.eqb_neq; lia).
    reflexivity.
Qed.

(** X10.  Once [null] is in the accepted-points collection (and the
    dimensionality is at least 1), every further step below [n] throws a
    TypeError on its first try, after drawing one candidate, and appends
    nothing. *)
Theorem next_throws_on_null_point (this : sampler) :
  In None (points this) ->
  1 <= dim this ->
  1 <= tries this ->
  length (points this) <> n this ->
  next this = (Throw TypeError, after_tries this 1).
Proof.
  intros Hnull Hdim Ht Hn. rewrite (next_not_full _ Hn).
  destruct (tries this) as [|k]; [lia|].
  rewrite try_loop_S. cbn zeta.
  assert (Hd : distToNearest this (draw (rng this) (draws this) (extent this)) =
               Throw TypeError).
  { unfold distToNearest, _distanceToExisting.
    rewrite (_distanceToExisting_null this _ Hdim _ _ Hnull). reflexivity. }
  rewrite Hd. unfold after_tries. rewrite Nat.mul_1_l. reflexivity.
Qed.

Lemma next_throws_on_null_point_run :
  next (run_state [Some [Fin (1 / 4)]; None] 5) =
    (Throw TypeError, after_tries (run_state [Some [Fin (1 / 4)]; None] 5) 1).
Proof.
  apply (next_throws_on_null_point (run_state [Some [Fin (1 / 4)]; None] 5)).
  - right. left. reflexivity.
  - simpl. lia.
  - simpl. lia.
  - simpl. lia.
Defined.

(** A step in which no candidate's distance compares above anything leaves
    [bestPoint] at [null]. *)
Lemma try_loop_all_NaN (k : nat) :
  forall this : sampler,
    (forall k0, distToNearest this (draw (rng this) k0 (extent this)) = Ret NaN) ->
    try_loop k None NegInf this = (Ret None, after_tries this k).
Proof.
  induction k as [|k IH]; intros this HNaN.
  - cbn [try_loop]. unfold ret, after_tries. simpl.
    rewrite Nat.add_0_r, set_draws_same. reflexivity.
  - rewrite try_loop_S. cbn zeta. rewrite HNaN. cbn [gtb].
    rewrite (IH (set_draws (draws this + length (extent this)) this)) by exact HNaN.
    unfold after_tries. rewrite set_draws_set_draws.
    cbn [draws extent set_draws]. f_equal. f_equal. simpl. lia.
Qed.

Lemma Math_hypot_NaN (l : list num) :
  existsb is_inf l = false -> existsb is_nan l = true -> Math_hypot l = NaN.
Proof. intros Hi Hn. unfold Math_hypot. rewrite Hi, Hn. reflexivity. Qed.

Lemma at_index_not_inf (p : point) (i : nat) :
  forallb is_fin p = true -> is_inf (at_index p i) = false.
Proof.
  unfold at_index. revert i. induction p as [|x p IH]; intros i Hp; simpl in *.
  - destruct i; reflexivity.
  - apply andb_prop in Hp as [Hx Hp]. destruct i; [|apply IH; exact Hp].
    destruct x; try discriminate; reflexivity.
Qed.

Lemma at_index_missing (p : point) (i : nat) : length p <= i -> at_index p i = NaN.
Proof. intros H. unfold at_index. apply nth_overflow. exact H. Qed.

Lemma sub_not_inf (a b : num) :
  is_inf a = false -> is_inf b = false -> is_inf (sub a b) = false.
Proof. destruct a, b; simpl; try discriminate; reflexivity. Qed.

(** The distance from a finite candidate with fewer coordinates than [dim]
    is NaN: a missing coordinate reads as [undefined]. *)
Lemma distance_short_candidate (dim : nat) (q c : point) :
  forallb is_fin q = true -> forallb is_fin c = true -> length c < dim ->
  distance dim q c = NaN.
Proof.
  intros Hq Hc Hlen. unfold distance. apply Math_hypot_NaN.
  - apply not_true_is_false. intros H. apply existsb_exists in H as [x [Hx Hinf]].
    apply in_map_iff in Hx as [i [<- _]].
    rewrite sub_not_inf in Hinf by (apply at_index_not_inf; assumption).
    discriminate.
  - apply existsb_exists. exists NaN. split; [|reflexivity].
    apply in_map_iff. exists (length c). split.
    + rewrite (at_index_missing c) by lia. reflexivity.
    + apply in_seq. lia.
Qed.

Lemma _distanceToExisting_short (this : sampler) (c : point) :
  forallb is_fin c = true -> length c < dim this ->
  forall (ps : list (option point)),
    all_finite_points ps = true ->
    fold_outcome
      (fun minDistance p =>
         obind (_distance this p c) (fun currentDistance =>
         Ret (Math_min [minDistance; currentDistance])))
      ps NaN = Ret NaN /\
    (ps <> [] ->
     forall acc,
       fold_outcome
         (fun minDistance p =>
            obind (_distance this p c) (fun currentDistance =>
            Ret (Math_min [minDistance; currentDistance])))
         ps acc = Ret NaN).
Proof.
  intros Hc Hlen. induction ps as [|p ps IH]; intros Hps.
  - split; [reflexivity|]. intros H. contradiction.
  - cbn [all_finite_points forallb] in Hps. apply andb_prop in Hps as [Hp Hps].
    destruct p as [q|]; [|discriminate].
    destruct (IH Hps) as [HNaN _].
    assert (Hstep : forall acc,
      fold_outcome
        (fun minDistance p =>
           obind (_distance this p c) (fun currentDistance =>
           Ret (Math_min [minDistance; currentDistance])))
        (Some q :: ps) acc = Ret NaN).
    { intros acc. cbn [fold_outcome]. rewrite _distance_Some. cbn [obind].
      rewrite (distance_short_candidate _ _ _ Hp Hc Hlen), Math_min_pair.
      replace (min2 acc NaN) with NaN by (destruct acc; reflexivity).
      exact HNaN. }
    split; [apply Hstep|]. intros _. exact Hstep.
Qed.

End Failures.

Section FailuresClaims.

Import Poissimple.

(** X11.  When the extent holds fewer axes than [dim] (and the numbers in
    play are finite), every candidate is short of coordinates and its
    distance to any accepted point is NaN; so once a first point is accepted,
    a step below [n] tries [tries] candidates, keeps none, appends [null] and
    returns [null]. *)
Theorem next_returns_null_on_short_extent (this : sampler) :
  length (extent this) < dim this ->
  forallb finite_axis (extent this) = true ->
  (forall k, is_fin (rng this k) = true) ->
  all_finite_points (points this) = true ->
  points this <> [] ->
  length (points this) <> n this ->
  next this =
    (Ret None, set_points (points this ++ [None]) (after_tries this (tries this))).
Proof.
  intros Hshort Hext Hrng Hps Hne Hn.
  rewrite (next_not_full _ Hn). rewrite try_loop_all_NaN; [reflexivity|].
  intros k0. unfold distToNearest, _distanceToExisting.
  destruct (_distanceToExisting_short this (draw (rng this) k0 (extent this)))
    with (ps := points this) as [_ HNaN].
  - apply draw_finite; assumption.
  - rewrite draw_length. exact Hshort.
  - exact Hps.
  - rewrite (HNaN Hne PosInf). cbn [obind].
    destruct (repulsiveBoundary this); [|reflexivity].
    unfold _distanceToBoundary.
    destruct (boundary_forEach_returns (extent this) (draw (rng this) k0 (extent this))
                0 PosInf) as [b Hb]; [rewrite draw_length; simpl; lia|].
    rewrite Hb. reflexivity.
Qed.

Lemma next_returns_null_on_short_extent_run :
  next short_extent_state =
    (Ret None,
     set_points (points short_extent_state ++ [None])
       (after_tries short_extent_state (tries short_extent_state))).
Proof.
  apply (next_returns_null_on_short_extent short_extent_state).
  - simpl. lia.
  - reflexivity.
  - intros k. unfold short_extent_state. cbn [rng]. unfold run_rng.
    do 5 (destruct k as [|k]; [reflexivity|]). reflexivity.
  - reflexivity.
  - discriminate.
  - simpl. lia.
Defined.

Lemma try_loop_draws (k : nat) :
  forall (this : sampler) (best : option point) (largest : num),
    exists a,
      a <= k /\ (1 <= k -> 1 <= a) /\
      snd (try_loop k best largest this) = after_tries this a.
Proof.
  induction k as [|k IH]; intros this best largest.
  - exists 0. split; [lia|]. split; [lia|].
    simpl. unfold after_tries. simpl. rewrite Nat.add_0_r, set_draws_same. reflexivity.
  - rewrite try_loop_S. cbn zeta.
    assert (H1 : set_draws (draws this + length (extent this)) this = after_tries this 1)
      by (unfold after_tries; rewrite Nat.mul_1_l; reflexivity).
    destruct (distToNearest this _) as [d|e].
    + destruct (gtb d (radius this)).
      * exists 1. split; [lia|]. split; [lia|]. exact H1.
      * destruct (IH (set_draws (draws this + length (extent this)) this)
                    (if gtb d largest
                     then Some (draw (rng this) (draws this) (extent this))
                     else best)
                    (if gtb d largest then d else largest)) as [a [Ha [_ Hs]]].
        exists (S a). split; [lia|]. split; [lia|]. rewrite Hs.
        unfold after_tries. rewrite set_draws_set_draws.
        cbn [draws extent set_draws]. f_equal. simpl. lia.
    + exists 1. split; [lia|]. split; [lia|]. exact H1.
Qed.

(** X12.  A call of [next()] draws whole candidates only, and at most
    [tries] of them: the random source is called [a] times per axis of the
    extent with [a <= tries]; at least one candidate is drawn below [n] (with
    a positive try budget) and none at [n]. *)
Theorem next_draws_at_most_tries_candidates (this : sampler) :
  exists a,
    a <= tries this /\
    draws (snd (next this)) = draws this + a * length (extent this) /\
    (length (points this) = n this -> a = 0) /\
    (length (points this) <> n this -> 1 <= tries this -> 1 <= a).
Proof.
  destruct (Nat.eq_dec (length (points this)) (n this)) as [Hn|Hn].
  - exists 0. rewrite (next_full _ Hn). cbn [snd].
    split; [lia|]. split; [lia|]. split; [reflexivity|contradiction].
  - rewrite (next_not_full _ Hn).
    destruct (try_loop_draws (tries this) this None NegInf) as [a [Ha [Hpos Hs]]].
    exists a. split; [exact Ha|].
    destruct (try_loop (tries this) None NegInf this) as [[best|e] s];
      cbn [snd] in *; subst s; (split; [reflexivity|]);
      (split; [intros H; contradiction|intros _ Ht; apply Hpos; exact Ht]).
Qed.

End FailuresClaims.

(** ** The collection stays inside the extent *)

Section Inside.

Import Poissimple.

Lemma in_extent_proper (rs : list (R * R)) (dim : nat) (ps : list (option point)) :
  length rs = dim ->
  Forall (in_extent rs) ps ->
  forallb (proper_point dim) ps = true.
Proof.
  intros Hlen Hps. apply forallb_forall. intros p Hp.
  rewrite Forall_forall in Hps. destruct (Hps p Hp) as [q [-> Hq]].
  cbn [proper_point]. apply andb_true_intro. split.
  - apply Nat.eqb_eq. rewrite <- Hlen. symmetry. apply (Forall2_length Hq).
  - clear Hp Hps Hlen. induction Hq as [|b x rs' q' [v [-> _]] _ IH]; simpl; auto.
Qed.

Lemma unit_rng_finite (rng : nat -> num) :
  (forall k, exists u, rng k = Fin u /\ (0 <= u < 1)%R) ->
  forall k, is_fin (rng k) = true.
Proof. intros H k. destruct (H k) as [u [-> _]]. reflexivity. Qed.

Lemma next_stays_in_extent (this : sampler) (rs : list (R * R)) :
  extent this = real_axes rs ->
  length rs = dim this ->
  proper_axes rs ->
  (forall k, exists u, rng this k = Fin u /\ (0 <= u < 1)%R) ->
  1 <= tries this ->
  Forall (in_extent rs) (points this) ->
  same_configuration this (snd (next this)) /\
  Forall (in_extent rs) (points (snd (next this))).
Proof.
  intros Hext Hlen Hrs Hrng Ht Hps.
  split; [apply next_cases|].
  destruct (Nat.eq_dec (length (points this)) (n this)) as [Hn|Hn].
  - rewrite (next_full _ Hn). exact Hps.
  - assert (Hwf : well_formed this).
    { split.
      - rewrite Hext. unfold real_axes. rewrite length_map. exact Hlen.
      - rewrite Hext. apply real_axes_finite.
      - apply unit_rng_finite. exact Hrng.
      - apply (in_extent_proper rs); assumption. }
    destruct (next_step_well_formed this Hwf Ht Hn) as [k0 [m Hnext]].
    rewrite Hnext. cbn [snd points set_points].
    apply Forall_app. split; [exact Hps|]. constructor; [|constructor].
    eexists. split; [reflexivity|]. rewrite Hext. apply draw_within; assumption.
Qed.

Lemma fill_loop_stays_in_extent (rs : list (R * R)) (fuel : nat) :
  forall (this this' : sampler) (r : outcome (list (option point))),
    extent this = real_axes rs ->
    length rs = dim this ->
    proper_axes rs ->
    (forall k, exists u, rng this k = Fin u /\ (0 <= u < 1)%R) ->
    1 <= tries this ->
    Forall (in_extent rs) (points this) ->
    fill_loop fuel this = Some (r, this') ->
    same_configuration this this' /\ Forall (in_extent rs) (points this').
Proof.
  induction fuel as [|fuel IH]; intros this this' r Hext Hlen Hrs Hrng Ht Hps H;
    cbn [fill_loop] in H.
  - destruct (length (points this) <? n this); [discriminate|].
    injection H as _ <-. split; [apply same_configuration_refl|exact Hps].
  - destruct (length (points this) <? n this).
    + destruct (next_stays_in_extent this rs Hext Hlen Hrs Hrng Ht Hps) as [Hc Hin].
      destruct (next this) as [[o|e] s]; cbn [snd] in *.
      * destruct (IH s this' r) as [Hc' Hin']; auto.
        -- rewrite (same_extent _ _ Hc). exact Hext.
        -- rewrite (same_dim _ _ Hc). exact Hlen.
        -- rewrite (same_rng _ _ Hc). exact Hrng.
        -- rewrite (same_tries _ _ Hc). exact Ht.
        -- split; [eapply same_configuration_trans; eauto|exact Hin'].
      * injection H as _ <-. split; assumption.
    + injection H as _ <-. split; [apply same_configuration_refl|exact Hps].
Qed.

(** X13.  Over an extent of one pair of finite bounds per dimension with
    [lower < upper], a random source with values in [[0, 1)] and a positive
    try budget: if every accepted point lies within the extent, so does every
    accepted point after any sequence of [next()] and [fill()] calls (in
    particular none of them is [null]). *)
Theorem accepted_points_stay_in_extent (calls : list call) :
  forall (this : sampler) (rs : list (R * R)),
    extent this = real_axes rs ->
    length rs = dim this ->
    proper_axes rs ->
    (forall k, exists u, rng this k = Fin u /\ (0 <= u < 1)%R) ->
    1 <= tries this ->
    Forall (in_extent rs) (getPoints this) ->
    Forall (in_extent rs) (getPoints (after_calls calls this)).
Proof.
  unfold getPoints.
  induction calls as [|c calls IH]; intros this rs Hext Hlen Hrs Hrng Ht Hps;
    cbn [after_calls fold_left]; [exact Hps|].
  assert (Hc : same_configuration this (after_call c this) /\
               Forall (in_extent rs) (points (after_call c this))).
  { destruct c; cbn [after_call].
    - apply next_stays_in_extent; assumption.
    - destruct (fill this) as [[r s]|] eqn:Hfill.
      + apply (fill_loop_stays_in_extent rs _ _ _ _ Hext Hlen Hrs Hrng Ht Hps Hfill).
      + split; [apply same_configuration_refl|exact Hps]. }
  destruct Hc as [Hc Hin]. apply IH; auto.
  - rewrite (same_extent _ _ Hc). exact Hext.
  - rewrite (same_dim _ _ Hc). exact Hlen.
  - rewrite (same_rng _ _ Hc). exact Hrng.
  - rewrite (same_tries _ _ Hc). exact Ht.
Qed.

Lemma accepted_points_stay_in_extent_run :
  Forall (in_extent [(0, 1)%R]) (getPoints (after_calls [CallNext; CallFill] run_start)).
Proof.
  apply (accepted_points_stay_in_extent [CallNext; CallFill] run_start [(0, 1)%R]).
  - reflexivity.
  - reflexivity.
  - constructor; [simpl; lra|constructor].
  - exact run_rng_unit.
  - simpl. lia.
  - constructor.
Defined.

End Inside.

(** ** [PoisSimple] without a point count *)

Section Unbounded.

Import PoisSimple.

Lemma PoisSimple_sample_axes_draw (axes : list bounds) (this : sampler) :
  sample_axes axes this =
    (Ret (draw (rng this) (draws this) axes),
     set_draws (draws this + length axes) this).
Proof.
  revert this. induction axes as [|[lower upper] rest IH]; intros this.
  - simpl. unfold ret, set_draws. rewrite Nat.add_0_r. destruct this; reflexivity.
  - simpl. unfold bind at 1. unfold call_rng, bind, get, modify, ret. simpl.
    rewrite IH. simpl. unfold set_draws. simpl.
    rewrite <- plus_n_Sm. reflexivity.
Qed.

Lemma gtb_NaN_r (d : num) : gtb d NaN = false.
Proof. destruct d; reflexivity. Qed.

(** With a NaN radius the test [distToNearest > this.radius] never holds,
    and the loop runs its whole budget unless a distance throws. *)
Lemma PoisSimple_try_loop_NaN (k : nat) :
  forall (best : option point) (largest : num) (this : sampler)
         (r : option point) (s : sampler),
    radius this = NaN ->
    try_loop k best largest this = (Ret r, s) ->
    s = set_draws (draws this + k * length (extent this)) this.
Proof.
  induction k as [|k IH]; intros best largest this r s Hrad H.
  - simpl in H. unfold ret in H. injection H as _ <-.
    rewrite Nat.add_0_r. destruct this; reflexivity.
  - cbn [try_loop] in H. unfold bind at 1 in H.
    unfold _sampleUniform, bind at 1, get in H.
    rewrite PoisSimple_sample_axes_draw in H.
    unfold bind at 1 in H. unfold read in H.
    destruct (_distanceToExisting _ _) as [d|e]; [|discriminate].
    unfold bind at 1, get in H. cbn [radius set_draws] in H.
    rewrite Hrad, gtb_NaN_r in H.
    apply IH in H; [|exact Hrad].
    rewrite H. cbn [draws extent set_draws]. unfold set_draws. cbn.
    f_equal. lia.
Qed.

Lemma inverse_not_zero (k : nat) : (1 / INR (S k))%R <> 0%R.
Proof.
  pose proof (lt_0_INR (S k) ltac:(lia)) as Hk.
  apply Rgt_not_eq. apply Rdiv_lt_0_compat; lra.
Qed.

(** X14.  A [PoisSimple] built without [n] keeps [n] undefined and gets a
    NaN radius, whatever the extent and the dimension count. *)
Theorem PoisSimple_without_n_has_NaN_radius (options : options) (rng : nat -> num)
    (this : sampler) :
  opt_n options = None ->
  PoisSimple options rng = Ret this ->
  n this = None /\ radius this = NaN /\ getAllPoints this = [].
Proof.
  intros Hn H. unfold PoisSimple in H.
  assert (Hpow : forall v, mul (div Math_PI (Fin 4))
                   (Math_pow (div v NaN)
                      (div (Fin 1) (of_count (opt_dimensions options)))) = NaN).
  { intros v.
    assert (Hv : div v NaN = NaN) by (destruct v; reflexivity). rewrite Hv.
    assert (Hp : Math_pow NaN (div (Fin 1) (of_count (opt_dimensions options))) = NaN).
    { destruct (opt_dimensions options) as [[|k]|]; unfold of_count, of_nat.
      - simpl. destruct (Req_dec_T 0 0); [|contradiction].
        destruct (Rlt_dec 0 1); [reflexivity|lra].
      - rewrite div_Fin by (apply Rgt_not_eq, lt_0_INR; lia).
        cbn [Math_pow].
        destruct (Req_dec_T _ 0) as [E|_]; [|reflexivity].
        exfalso. exact (inverse_not_zero k E).
      - reflexivity. }
    rewrite Hp. destruct (div Math_PI (Fin 4)); reflexivity. }
  destruct (opt_extent options) as [[lo up|axes]|]; [discriminate| |];
    cbv [bind modify get ret _computeExtentVolume _computeLowerDistance fst] in H;
    injection H as <-;
    cbn [n radius points volume dim set_points set_radius set_volume getAllPoints];
    rewrite Hn, Hpow; auto.
Qed.

Lemma PoisSimple_without_n_has_NaN_radius_run :
  exists this,
    PoisSimple (mkOptions None (Some 1) (Some (Nested [(Fin 0, Fin 1)])) None (Some 2) None)
      run_rng = Ret this /\
    n this = None /\ radius this = NaN /\ getAllPoints this = [].
Proof.
  eexists. split; [reflexivity|].
  apply (PoisSimple_without_n_has_NaN_radius
           (mkOptions None (Some 1) (Some (Nested [(Fin 0, Fin 1)])) None (Some 2) None)
           run_rng); reflexivity.
Defined.

(** X15.  With [n] undefined and a NaN radius, [fill()] returns the
    collection as it is without generating anything, and [next()] never
    answers "done": whenever it returns, it has used its whole try budget
    ([tries] candidates, one draw per extent axis each) and appended what it
    returns, leaving [n] and the radius as they were, so the collection grows
    with every returning call. *)
Theorem next_without_n_always_appends (this : sampler) :
  n this = None ->
  radius this = NaN ->
  fill this = Some (Ret (getAllPoints this), this) /\
  forall (r : option point) (s : sampler),
    next this = (Ret r, s) ->
    getAllPoints s = getAllPoints this ++ [r] /\
    draws s = draws this + tries this * length (extent this) /\
    n s = None /\ radius s = NaN.
Proof.
  intros Hn Hrad. split.
  - unfold fill. rewrite Hn. cbn [fill_loop]. rewrite Hn. reflexivity.
  - intros r s H. unfold next, bind at 1, get in H.
    rewrite Hn in H. cbn [length_is] in H.
    unfold bind at 1 in H.
    destruct (try_loop (tries this) None NegInf this) as [[best|e] this'] eqn:Hloop;
      [|discriminate].
    apply PoisSimple_try_loop_NaN in Hloop; [|exact Hrad]. subst this'.
    cbv [bind push modify ret] in H. injection H as <- <-.
    cbn [getAllPoints points draws n radius set_points set_draws]. auto.
Qed.

Lemma next_without_n_always_appends_run :
  fill (mkSampler None (Some 1) [(Fin 0, Fin 1)] 2 run_rng (Fin 1) NaN [] 0) =
    Some (Ret [], mkSampler None (Some 1) [(Fin 0, Fin 1)] 2 run_rng (Fin 1) NaN [] 0).
Proof.
  apply (next_without_n_always_appends
           (mkSampler None (Some 1) [(Fin 0, Fin 1)] 2 run_rng (Fin 1) NaN [] 0));
    reflexivity.
Defined.

End Unbounded.

(** ** What the constructors make of their options *)

Section Options.

Lemma measure_default (k : nat) : measure (repeat ((-1)%R, 1%R) k) = (2 ^ k)%R.
Proof. induction k as [|k IH]; simpl; [reflexivity|]. rewrite IH. lra. Qed.

Lemma real_axes_default (k : nat) :
  real_axes (repeat ((-1)%R, 1%R) k) = default_extent k.
Proof.
  unfold real_axes, default_extent.
  induction k as [|k IH]; simpl; [reflexivity|]. rewrite IH. reflexivity.
Qed.

Lemma proper_axes_default (k : nat) : proper_axes (repeat ((-1)%R, 1%R) k).
Proof. induction k as [|k IH]; constructor; [simpl; lra|exact IH]. Qed.

Lemma Poissimple_returns (options : options) (rng : nat -> num) (axes : list bounds) :
  Poissimple.init_extent (or_default (opt_dimensions options) 2) (opt_extent options) =
    Poissimple.Axes axes ->
  exists this,
    Poissimple.Poissimple options rng = Some (Ret this) /\
    Poissimple.extent this = axes.
Proof.
  intros H. unfold Poissimple.Poissimple. rewrite H.
  eexists. split; reflexivity.
Qed.



(** X17.  Without an [extent] option, [Poissimple] returns a sampler over
    [[-1, 1]] on each of its [dim] axes: the volume is [2 ^ dim] and the
    radius [PI / 4 * (2 ^ dim / n) ^ (1 / dim)]. *)
Theorem default_extent_is_the_cube (options : options) (rng : nat -> num) :
  opt_extent options = None ->
  exists this,
    Poissimple.Poissimple options rng = Some (Ret this) /\
    Poissimple.extent this = real_axes (repeat ((-1)%R, 1%R) (Poissimple.dim this)) /\
    Poissimple.volume this = Fin (2 ^ Poissimple.dim this) /\
    Poissimple.radius this =
      Fin (PI / 4 *
           Rpower (2 ^ Poissimple.dim this / INR (Poissimple.n this))
                  (1 / INR (Poissimple.dim this))).
Proof.
  intros He.
  destruct (Poissimple_returns options rng
              (default_extent (or_default (opt_dimensions options) 2)))
    as [this [Hnew Hext]].
  { rewrite He. reflexivity. }
  exists this. split; [exact Hnew|].
  assert (Hd : Poissimple.dim this = or_default (opt_dimensions options) 2).
  { destruct (Poissimple_fields _ _ _ Hnew) as [axes [_ ->]]. reflexivity. }
  assert (Hext' : Poissimple.extent this =
                  real_axes (repeat ((-1)%R, 1%R) (Poissimple.dim this))).
  { rewrite Hext, Hd. symmetry. apply real_axes_default. }
  split; [exact Hext'|].
  destruct (radius_real this options rng _ Hnew Hext' (proper_axes_default _))
    as [Hv Hr].
  rewrite measure_default in Hv, Hr. split; assumption.
Qed.

Lemma default_extent_is_the_cube_run :
  exists this,
    Poissimple.Poissimple (mkOptions (Some 4) None None None None None) run_rng =
      Some (Ret this) /\
    Poissimple.volume this = Fin (2 ^ Poissimple.dim this).
Proof.
  destruct (default_extent_is_the_cube
              (mkOptions (Some 4) None None None None None) run_rng eq_refl)
    as [this [Hnew [_ [Hv _]]]].
  exists this. split; assumption.
Defined.

(** X18.  Over the same extent of finite bounds with [lower < upper] on every
    axis and the same dimension count, the sampler asked for more points has
    the smaller radius, and both radii are positive. *)
Theorem radius_decreases_with_n (o1 o2 : options) (rng1 rng2 : nat -> num)
    (this1 this2 : Poissimple.sampler) (rs : list (R * R)) :
  Poissimple.Poissimple o1 rng1 = Some (Ret this1) ->
  Poissimple.Poissimple o2 rng2 = Some (Ret this2) ->
  Poissimple.extent this1 = real_axes rs ->
  Poissimple.extent this2 = real_axes rs ->
  proper_axes rs ->
  Poissimple.dim this1 = Poissimple.dim this2 ->
  Poissimple.n this1 < Poissimple.n this2 ->
  exists r1 r2 : R,
    Poissimple.radius this1 = Fin r1 /\
    Poissimple.radius this2 = Fin r2 /\
    (0 < r2 < r1)%R.
Proof.
  intros H1 H2 He1 He2 Hrs Hd Hn.
  destruct (radius_real this1 o1 rng1 rs H1 He1 Hrs) as [_ Hr1].
  destruct (radius_real this2 o2 rng2 rs H2 He2 Hrs) as [_ Hr2].
  destruct (Poissimple_initial _ _ _ H1) as [_ [_ [Hn1 [Hd1 _]]]].
  destruct (Poissimple_initial _ _ _ H2) as [_ [_ [Hn2 _]]].
  eexists. eexists. split; [exact Hr1|]. split; [exact Hr2|].
  rewrite <- Hd.
  pose proof (measure_positive rs Hrs) as HV.
  pose proof (INR_positive _ Hn1) as Hp1.
  pose proof (INR_positive _ Hn2) as Hp2.
  pose proof (INR_positive _ Hd1) as Hpd.
  assert (Hlt : (INR (Poissimple.n this1) < INR (Poissimple.n this2))%R)
    by (apply lt_INR; exact Hn).
  assert (Hq2 : (0 < measure rs / INR (Poissimple.n this2))%R)
    by (apply Rdiv_lt_0_compat; assumption).
  assert (Hq : (measure rs / INR (Poissimple.n this2) <
                measure rs / INR (Poissimple.n this1))%R).
  { unfold Rdiv. apply Rmult_lt_compat_l; [exact HV|].
    apply Rinv_lt_contravar; [apply Rmult_lt_0_compat; assumption|exact Hlt]. }
  assert (Hc : (0 < 1 / INR (Poissimple.dim this1))%R)
    by (apply Rdiv_lt_0_compat; lra).
  pose proof (Rlt_Rpower_l _ _ _ Hc (conj Hq2 Hq)) as Hpow.
  assert (Hpos : (0 < Rpower (measure rs / INR (Poissimple.n this2))
                            (1 / INR (Poissimple.dim this1)))%R)
    by (unfold Rpower; apply exp_pos).
  pose proof PI_RGT_0 as Hpi.
  split.
  - apply Rmult_lt_0_compat; [lra|exact Hpos].
  - apply Rmult_lt_compat_l; [lra|exact Hpow].
Qed.

Lemma radius_decreases_with_n_run :
  exists r1 r2 : R,
    Poissimple.radius guard_start = Fin r1 /\
    Poissimple.radius run_start = Fin r2 /\
    (0 < r2 < r1)%R.
Proof.
  apply (radius_decreases_with_n guard_options run_options edge_rng run_rng
           guard_start run_start [(0, 1)%R]).
  - exact guard_start_constructed.
  - exact run_start_constructed.
  - reflexivity.
  - reflexivity.
  - constructor; [simpl; lra|constructor].
  - reflexivity.
  - simpl. lia.
Defined.

(** X19.  An explicit [n: 0] is taken at its word by [PoisSimple] and
    replaced by 10 by [Poissimple]: the earlier sampler is complete from the
    start ([next()] answers [null], [fill()] the empty collection, neither
    touching it), the later one appends on its first [next()]. *)
Theorem explicit_zero_count (options : options) (rng : nat -> num)
    (this : Poissimple.sampler) (a : PoisSimple.sampler) :
  opt_n options = Some 0 ->
  Poissimple.Poissimple options rng = Some (Ret this) ->
  PoisSimple.PoisSimple options rng = Ret a ->
  PoisSimple.next a = (Ret None, a) /\
  PoisSimple.fill a = Some (Ret [], a) /\
  Poissimple.n this = 10 /\
  (forall r s, Poissimple.next this = (Ret r, s) -> Poissimple.getPoints s = [r]).
Proof.
  intros Hn Hnew Hold.
  assert (Ha : PoisSimple.n a = Some 0 /\ PoisSimple.points a = []).
  { unfold PoisSimple.PoisSimple in Hold.
    destruct (opt_extent options) as [[lo up|axes]|]; [discriminate| |];
      cbv [bind modify get ret PoisSimple._computeExtentVolume
           PoisSimple._computeLowerDistance fst] in Hold;
      injection Hold as <-; cbn; auto. }
  destruct Ha as [Han Hap].
  destruct (Poissimple_fields _ _ _ Hnew) as [axes [_ Hthis]].
  rewrite Hn in Hthis. cbn [or_default] in Hthis.
  split; [|split; [|split]].
  - unfold PoisSimple.next, bind, get. rewrite Han, Hap. reflexivity.
  - unfold PoisSimple.fill. rewrite Han, Hap. cbn [length Nat.sub PoisSimple.fill_loop].
    rewrite Han, Hap. reflexivity.
  - rewrite Hthis. reflexivity.
  - intros r s H.
    assert (Hne : length (Poissimple.points this) <> Poissimple.n this).
    { rewrite Hthis. simpl. lia. }
    rewrite (next_not_full this Hne) in H.
    destruct (try_loop_frame (Poissimple.tries this) None NegInf this) as [m Hm].
    destruct (Poissimple.try_loop _ _ _ this) as [[best|e] this'];
      [|discriminate].
    cbn [snd] in Hm. subst this'. injection H as <- <-.
    cbn [Poissimple.getPoints Poissimple.points Poissimple.set_points
         Poissimple.set_draws].
    rewrite Hthis. reflexivity.
Qed.

Lemma explicit_zero_count_run :
  exists (this : Poissimple.sampler) (a : PoisSimple.sampler),
    Poissimple.Poissimple zero_options run_rng = Some (Ret this) /\
    PoisSimple.next a = (Ret None, a) /\
    Poissimple.n this = 10.
Proof.
  assert (H1 : {this | Poissimple.Poissimple zero_options run_rng = Some (Ret this)})
    by (eexists; reflexivity).
  assert (H2 : {a | PoisSimple.PoisSimple zero_options run_rng = Ret a})
    by (eexists; reflexivity).
  destruct H1 as [this H1]. destruct H2 as [a H2].
  exists this, a.
  destruct (explicit_zero_count zero_options run_rng this a eq_refl H1 H2)
    as [Ha [_ [Hb _]]].
  split; [exact H1|]. split; [exact Ha|exact Hb].
Defined.

End Options.

(** ** A degenerate extent *)

Section Degenerate.

Import Poissimple.

Lemma measure_zero (rs : list (R * R)) (b : R * R) :
  In b rs -> fst b = snd b -> measure rs = 0%R.
Proof.
  intros Hin Hb. induction rs as [|b' rs IH]; [contradiction|].
  cbn [measure fold_right]. destruct Hin as [->|Hin].
  - rewrite Hb. lra.
  - fold (measure rs). rewrite (IH Hin). lra.
Qed.

(** X20.  Over an extent of finite bounds in which some axis has
    [lower = upper], the constructor computes volume 0 and radius 0. *)
Theorem degenerate_extent_has_zero_radius (options : options) (rng : nat -> num)
    (this : sampler) (rs : list (R * R)) (b : R * R) :
  Poissimple options rng = Some (Ret this) ->
  extent this = real_axes rs ->
  In b rs ->
  fst b = snd b ->
  volume this = Fin 0 /\ radius this = Fin 0.
Proof.
  intros Hnew Hext Hin Hb.
  destruct (Poissimple_initial _ _ _ Hnew) as [_ [_ [Hn [Hd _]]]].
  destruct (Poissimple_fields _ _ _ Hnew) as [axes [_ Hthis]].
  assert (Haxes : axes = real_axes rs) by (rewrite Hthis in Hext; exact Hext).
  subst axes. rewrite volume_real_axes, (measure_zero rs b Hin Hb) in Hthis.
  replace (1 * 0)%R with 0%R in Hthis by lra.
  assert (Hnpos : (0 < INR (n this))%R) by (apply INR_positive; exact Hn).
  assert (Hdpos : (0 < INR (dim this))%R) by (apply INR_positive; exact Hd).
  rewrite Hthis in Hnpos, Hdpos. cbn [n dim] in Hnpos, Hdpos.
  rewrite Hthis. cbn [volume radius]. split; [reflexivity|].
  unfold of_nat, Math_PI. rewrite !div_Fin by lra.
  replace (0 / INR (or_default (opt_n options) 10))%R with 0%R
    by (unfold Rdiv; lra).
  assert (Hy : (0 < 1 / INR (or_default (opt_dimensions options) 2))%R)
    by (apply Rdiv_lt_0_compat; lra).
  cbn [Math_pow].
  destruct (Req_dec_T _ 0) as [E|_]; [lra|].
  destruct (Req_dec_T 0 0) as [_|E]; [|contradiction].
  destruct (Rlt_dec 0 _) as [_|E]; [|contradiction].
  simpl. f_equal. lra.
Qed.

Lemma degenerate_extent_has_zero_radius_run :
  exists this,
    Poissimple degenerate_options run_rng = Some (Ret this) /\
    volume this = Fin 0 /\ radius this = Fin 0.
Proof.
  destruct (Poissimple_returns degenerate_options run_rng [(Fin 0, Fin 0)] eq_refl)
    as [this [Hnew Hext]].
  exists this. split; [exact Hnew|].
  apply (degenerate_extent_has_zero_radius degenerate_options run_rng this
           [(0, 0)%R] (0, 0)%R Hnew Hext); [left; reflexivity|reflexivity].
Defined.

End Degenerate.
